(** * whatsapp_lab: chat broadcast server and clock-synchronising client

    A shallow embedding of [server.py] and [client.py].

    - Python values that travel on the wire are the type [pyval]; a Python
      [float] is an IEEE binary64 number ([PrimFloat.float]), a Python [int]
      is an unbounded integer ([Z]), and [bool] is the subclass of [int] it
      is in Python.
    - A Python [str] is a [string]: a sequence of code points below 256.
    - Wall-clock readings ([time.time()]) and the success of socket writes
      are inputs of the functions that perform them.
    - The server's shared [clients] set is a [gset]; everything a handler
      does to the outside world (lock operations, socket writes, registry
      updates) is recorded in an event trace. *)

From Stdlib Require Import ZArith Lia Bool List Ascii String.
From Stdlib Require Import DecimalString DecimalFacts DecimalPos DecimalZ.
From Stdlib Require Import PrimFloat FloatOps FloatAxioms SpecFloat.
From stdpp Require Import base strings gmap sets list.
Import ListNotations.

Set Warnings "-register-all,-clear-no-such-hyp".

(* stdpp seals [String.append] against [simpl]; the codec proofs unfold it. *)
#[local] Arguments String.append !_ _ / : simpl nomatch.

Local Open Scope Z_scope.
Local Open Scope string_scope.
Local Open Scope list_scope.

(** ** Python values *)

Inductive pyval : Type :=
| PNone
| PBool (b : bool)
| PInt (z : Z)
| PFloat (f : float)
| PStr (s : string)
| PList (l : list pyval)
| PDict (d : list (string * pyval)).

(** A [dict] with string keys, in insertion order. *)
Abbreviation pydict := (list (string * pyval)).

(** [d.get(k)]: the value of the first (and, in a well-formed dict, only)
    entry with key [k]. *)
Fixpoint dict_lookup (k : string) (d : pydict) : option pyval :=
  match d with
  | [] => None
  | (k', v) :: d' => if String.eqb k k' then Some v else dict_lookup k d'
  end.

(** [d.get(k, default)]. *)
Definition dict_get (d : pydict) (k : string) (default : pyval) : pyval :=
  match dict_lookup k d with
  | Some v => v
  | None => default
  end.

(** Exceptions that the modelled code can meet.  [JSONDecodeError] is a
    subclass of [ValueError]; [except json.JSONDecodeError] catches the
    former only. *)
Inductive exn : Type :=
| AttributeError
| OverflowError
| ZeroDivisionError
| TypeError
| OSError
| JSONDecodeError
| ValueError
| RecursionError.

Inductive result (A : Type) : Type :=
| Ok (a : A)
| Raise (e : exn).
Arguments Ok {A} a.
Arguments Raise {A} e.

#[export] Instance result_ret : MRet result := fun _ a => Ok a.
#[export] Instance result_bind : MBind result := fun _ _ k r =>
  match r with
  | Ok a => k a
  | Raise e => Raise e
  end.

(** ** Python arithmetic on [int] and [float] *)

Module PyNum.

(** [float(z)] for an [int]: round to nearest even; CPython raises
    [OverflowError] when the rounded value does not fit in a binary64. *)
Definition float_of_int (z : Z) : result float :=
  let f := SF2Prim (binary_normalize prec emax z 0 false) in
  if is_infinity f then Raise OverflowError else Ok f.

(** The operand of a binary arithmetic operator, seen as a number:
    [bool] is an [int]; anything else is not a number. *)
Definition as_int (v : pyval) : option Z :=
  match v with
  | PInt z => Some z
  | PBool b => Some (if b then 1 else 0)
  | _ => None
  end.

Definition as_float (v : pyval) : option float :=
  match v with
  | PFloat f => Some f
  | _ => None
  end.

(** Coercion of one operand when the other one is a [float]. *)
Definition coerce (v : pyval) : result float :=
  match v with
  | PFloat f => Ok f
  | _ => match as_int v with
         | Some z => float_of_int z
         | None => Raise TypeError
         end
  end.

(** A binary operator that is exact on two ints and is the binary64
    operation as soon as one operand is a float.  (The modelled code never
    applies [+] or [-] to two operands that are both not numbers.) *)
Definition arith (opz : Z -> Z -> Z) (opf : float -> float -> float)
           (a b : pyval) : result pyval :=
  match as_int a, as_int b with
  | Some x, Some y => Ok (PInt (opz x y))
  | _, _ =>
      match as_float a, as_float b with
      | None, None => Raise TypeError
      | _, _ =>
          x ← coerce a; y ← coerce b; Ok (PFloat (opf x y))
      end
  end.

Definition add := arith Z.add PrimFloat.add.
Definition sub := arith Z.sub PrimFloat.sub.

(** True division [a / y] by a [float] divisor [y]: the dividend is
    converted to [float] first. *)
Definition truediv (a : pyval) (y : float) : result pyval :=
  x ← coerce a;
  if PrimFloat.eqb y 0%float then Raise ZeroDivisionError
  else Ok (PFloat (PrimFloat.div x y)).

(** [isinstance(v, (int, float))]. *)
Definition is_int_or_float (v : pyval) : bool :=
  match v with
  | PInt _ | PBool _ | PFloat _ => true
  | _ => false
  end.

End PyNum.

(** ** client.py: the clock *)

Definition DRIFT_PER_SEC : float := 0%float.

Record Clock : Type := mkClock {
  start_real : float;
  start_local : float;
  offset : pyval
}.

(** [Clock.__init__], run when the wall clock reads [t]. *)
Definition Clock_init (t : float) : Clock :=
  {| start_real := t; start_local := t; offset := PFloat 0%float |}.

(** [Clock.now_local], called when the wall clock reads [t]. *)
Definition now_local (c : Clock) (t : float) : float :=
  let real_elapsed := (t - start_real c)%float in
  (start_local c + real_elapsed * (1 + DRIFT_PER_SEC))%float.

(** [Clock.now_synced], called when the wall clock reads [t]. *)
Definition now_synced (c : Clock) (t : float) : result pyval :=
  PyNum.add (PFloat (now_local c t)) (offset c).

(** [Clock.apply_cristian]. *)
Definition apply_cristian (c : Clock) (t_send server_time t_recv : pyval)
  : result Clock :=
  rtt ← PyNum.sub t_recv t_send;
  half ← PyNum.truediv rtt 2%float;
  s ← PyNum.add server_time half;
  est_offset ← PyNum.sub s t_recv;
  Ok {| start_real := start_real c; start_local := start_local c;
        offset := est_offset |}.

(** ** server.py: registry, broadcaster and session handler *)

(** A connection is known by the identity of its socket object. *)
Definition conn := nat.

(** What a handler does to the world, in program order. *)
Inductive event : Type :=
| EvAcquire                                   (* enter [with clients_lock] *)
| EvRelease                                   (* leave [with clients_lock] *)
| EvAdd (c : conn)                            (* [clients.add(c)] *)
| EvDiscard (c : conn)                        (* [clients.discard(c)] / [remove] *)
| EvSend (c : conn) (obj : pyval) (ok : bool) (* [send_json(c, obj)] *)
| EvClose (c : conn).                         (* [c.close()] *)

(** The shared state: the [clients] set, and the trace of events so far. *)
Record world : Type := mkWorld {
  clients : gset conn;
  trace : list event
}.

Definition emit (evs : list event) (w : world) : world :=
  {| clients := clients w; trace := trace w ++ evs |}.

(** [send_json(sock, obj)] when [sendall] succeeds ([ok = true]) or raises. *)
Definition send_json (ok : bool) (sock : conn) (obj : pyval) (w : world)
  : result unit * world :=
  (if ok then Ok tt else Raise OSError, emit [EvSend sock obj ok] w).

(** [c is exclude], where [exclude] is a connection or [None]. *)
Definition is_exclude (c : conn) (exclude : option conn) : bool :=
  match exclude with
  | Some e => Nat.eqb c e
  | None => false
  end.

(** The first loop of [broadcast] over the connections [cs] in iteration
    order: the list [dead] and the sends, given which sockets accept a
    write ([net]). *)
Fixpoint fan_out (net : conn -> bool) (msg_obj : pyval)
         (exclude : option conn) (cs : list conn) : list conn * list event :=
  match cs with
  | [] => ([], [])
  | c :: cs' =>
      let '(dead, evs) := fan_out net msg_obj exclude cs' in
      if is_exclude c exclude then (dead, evs)
      else if net c then (dead, EvSend c msg_obj true :: evs)
      else (c :: dead, EvSend c msg_obj false :: evs)
  end.

(** The second loop of [broadcast]: [clients.discard(d)] for [d] in [dead]. *)
Fixpoint discard_all (dead : list conn) (s : gset conn) : gset conn :=
  match dead with
  | [] => s
  | d :: dead' => discard_all dead' (s ∖ {[d]})
  end.

(** [broadcast(msg_obj, exclude)]. *)
Definition broadcast (net : conn -> bool) (msg_obj : pyval)
           (exclude : option conn) (w : world) : world :=
  let '(dead, sends) := fan_out net msg_obj exclude (elements (clients w)) in
  {| clients := discard_all dead (clients w);
     trace := trace w ++ [EvAcquire] ++ sends ++ map EvDiscard dead
                      ++ [EvRelease] |}.

(** [mtype == s] for a string literal [s]. *)
Definition py_eq_str (v : pyval) (s : string) : bool :=
  match v with
  | PStr s' => String.eqb s' s
  | _ => false
  end.

(** The dict built in the [chat] branch. *)
Definition chat_out (msg : pydict) (server_ts : float) : pydict :=
  [("type", PStr "chat");
   ("from", dict_get msg "from" (PStr "?"));
   ("text", dict_get msg "text" (PStr ""));
   ("client_ts", dict_get msg "client_ts" PNone);
   ("server_ts", PFloat server_ts)].

Definition sync_reply (server_time : float) : pydict :=
  [("type", PStr "sync_reply"); ("server_time", PFloat server_time)].

Definition info (text : string) : pydict :=
  [("type", PStr "info"); ("text", PStr text)].

(** The body of the read loop after [json.loads]: dispatch on [type].
    [now] is what [time.time()] returns in the branch taken; [conn0] is
    the handler's own connection. *)
Definition handle_msg (net : conn -> bool) (now : float) (conn0 : conn)
           (msg : pyval) (w : world) : result unit * world :=
  match msg with
  | PDict d =>
      let mtype := dict_get d "type" PNone in
      if py_eq_str mtype "chat" then
        (Ok tt, broadcast net (PDict (chat_out d now)) None w)
      else if py_eq_str mtype "sync_request" then
        send_json (net conn0) conn0 (PDict (sync_reply now)) w
      else (Ok tt, w)
  | _ => (Raise AttributeError, w)     (* [msg.get] on a non-dict *)
  end.

(** [str.isspace] on the code points below 256. *)
Definition is_space (c : ascii) : bool :=
  let n := nat_of_ascii c in
  ((9 <=? n) && (n <=? 13) || (28 <=? n) && (n <=? 32)
   || (n =? 133) || (n =? 160))%nat.

Fixpoint lstrip (s : string) : string :=
  match s with
  | String c s' => if is_space c then lstrip s' else s
  | EmptyString => EmptyString
  end.

Fixpoint rstrip (s : string) : string :=
  match s with
  | String c s' =>
      match rstrip s' with
      | EmptyString => if is_space c then EmptyString else String c EmptyString
      | r => String c r
      end
  | EmptyString => EmptyString
  end.

(** [s.strip()]. *)
Definition strip (s : string) : string := rstrip (lstrip s).

Section Session.

(** [json.loads]: the decoded value, or the exception it raises
    ([JSONDecodeError] for a text that is not JSON; [ValueError] for an
    integer literal beyond the interpreter's digit limit; [RecursionError]
    for a text nested too deeply). *)
Variable loads : string -> result pyval.

(** One iteration of [for line in f].  Only [JSONDecodeError] is caught by
    the inner [try]; any other exception of [json.loads] leaves the loop. *)
Definition handle_line (net : conn -> bool) (now : float) (conn0 : conn)
           (line : string) (w : world) : result unit * world :=
  let line := strip line in
  match line with
  | EmptyString => (Ok tt, w)               (* [if not line: continue] *)
  | _ =>
      match loads line with
      | Ok msg => handle_msg net now conn0 msg w
      | Raise JSONDecodeError => (Ok tt, w) (* [except json.JSONDecodeError] *)
      | Raise e => (Raise e, w)
      end
  end.

(** What the environment supplies for one iteration: the line read, the
    wall clock, and which sockets accept a write at that moment. *)
Record input : Type := mkInput {
  in_line : string;
  in_now : float;
  in_net : conn -> bool
}.

(** The [for] loop: it ends with the stream, or with the first exception. *)
Fixpoint read_loop (conn0 : conn) (ins : list input) (w : world) : world :=
  match ins with
  | [] => w
  | i :: ins' =>
      match handle_line (in_net i) (in_now i) conn0 (in_line i) w with
      | (Ok _, w') => read_loop conn0 ins' w'
      | (Raise _, w') => w'
      end
  end.

(** Joining as one handler runs it when no other handler runs in between:
    registration under the lock, then the join notice ([conn.makefile] is
    taken to succeed).  The lock is released between the two; what other
    handlers can do there is in [server_step] below. *)
Definition join (net : conn -> bool) (conn0 : conn) (addr : string)
           (w : world) : world :=
  let w1 := {| clients := {[conn0]} ∪ clients w;
               trace := trace w ++ [EvAcquire; EvAdd conn0; EvRelease] |} in
  broadcast net (PDict (info (addr +:+ " joined"))) None w1.

(** Leaving: the [finally] block. *)
Definition leave (net : conn -> bool) (conn0 : conn) (addr : string)
           (w : world) : world :=
  let w1 :=
    if bool_decide (conn0 ∈ clients w) then
      {| clients := clients w ∖ {[conn0]};
         trace := trace w ++ [EvAcquire; EvDiscard conn0; EvRelease] |}
    else emit [EvAcquire; EvRelease] w in
  let w2 := emit [EvClose conn0] w1 in
  broadcast net (PDict (info (addr +:+ " left"))) None w2.

(** [handle_client(conn, addr)]. *)
Definition handle_client (conn0 : conn) (addr : string)
           (net_join : conn -> bool) (ins : list input)
           (net_leave : conn -> bool) (w : world) : world :=
  leave net_leave conn0 addr (read_loop conn0 ins (join net_join conn0 addr w)).

End Session.

(** The events a step added to the trace. *)
Definition since (w w' : world) : list event :=
  drop (length (trace w)) (trace w').

(** A trace in which every socket write happens while the registry lock
    is not held; [held] tells whether it is held at the start. *)
Fixpoint sends_outside_lock (held : bool) (tr : list event) : bool :=
  match tr with
  | [] => true
  | EvAcquire :: tr' => sends_outside_lock true tr'
  | EvRelease :: tr' => sends_outside_lock false tr'
  | EvSend _ _ _ :: tr' => negb held && sends_outside_lock held tr'
  | _ :: tr' => sends_outside_lock held tr'
  end.

(** A trace in which every socket write happens while the lock is held. *)
Fixpoint sends_inside_lock (held : bool) (tr : list event) : bool :=
  match tr with
  | [] => true
  | EvAcquire :: tr' => sends_inside_lock true tr'
  | EvRelease :: tr' => sends_inside_lock false tr'
  | EvSend _ _ _ :: tr' => held && sends_inside_lock held tr'
  | _ :: tr' => sends_inside_lock held tr'
  end.

(** ** client.py: the inbound queue and the sync coordinator *)

(** [msg.get("type") == "sync_reply"] for a dict. *)
Definition is_sync_reply (d : pydict) : bool :=
  py_eq_str (dict_get d "type" PNone) "sync_reply".

(** What the receiver thread puts on [ui_queue] during one iteration of
    the wait loop: before [get] returns, and between [get] and [put]. *)
Record tick : Type := mkTick {
  before_get : list pyval;
  before_put : list pyval
}.

Definition quiet : tick := {| before_get := []; before_put := [] |}.

(** The loop [while time.time() < deadline] of [sync_with_server]: one
    element of [sched] per iteration that starts before the deadline; the
    queue is a list with its head at the front.  The result is [reply]
    (or the exception raised by [msg.get]) and the queue left behind. *)
Fixpoint wait_reply (sched : list tick) (q : list pyval)
  : result (option pydict) * list pyval :=
  match sched with
  | [] => (Ok None, q)
  | t :: sched' =>
      match q ++ before_get t with
      | [] => wait_reply sched' []                  (* [queue.Empty] *)
      | msg :: q' =>
          match msg with
          | PDict d =>
              if is_sync_reply d then (Ok (Some d), q')
              else wait_reply sched' (q' ++ before_put t ++ [msg])
          | _ => (Raise AttributeError, q')
          end
      end
  end.

(** Lines handed to [append_chat]. *)
Inductive chat_line : Type :=
| Line (s : string)
| SyncError (e : exn).                  (* f"[sync error] {e}" *)

(** Callbacks registered with [master.after]. *)
Inductive task : Type := TaskUi | TaskClocks | TaskSync.

Record ClientApp : Type := mkApp {
  running : bool;
  clock : Clock;
  ui_queue : list pyval;
  chat : list chat_line;
  timers : list (Z * task)
}.

(** What the environment supplies to one call of [sync_with_server]. *)
Record round : Type := mkRound {
  wall_send : float;       (* [time.time()] inside the first [now_local()] *)
  send_ok : bool;          (* whether [sendall] succeeds *)
  sched : list tick;       (* the wait loop *)
  wall_recv : float        (* [time.time()] inside the second [now_local()] *)
}.

(** The [try] block of [sync_with_server]: the line it appends on normal
    completion (or the exception), the clock and the queue. *)
Definition sync_try (r : round) (a : ClientApp)
  : result string * Clock * list pyval :=
  let t_send := now_local (clock a) (wall_send r) in
  if negb (send_ok r) then (Raise OSError, clock a, ui_queue a)
  else
    match wait_reply (sched r) (ui_queue a) with
    | (Raise e, q) => (Raise e, clock a, q)
    | (Ok None, q) => (Ok "[sync] no reply", clock a, q)
    | (Ok (Some reply), q) =>
        let t_recv := now_local (clock a) (wall_recv r) in
        let server_time := dict_get reply "server_time" PNone in
        if PyNum.is_int_or_float server_time then
          match apply_cristian (clock a) (PFloat t_send) server_time
                               (PFloat t_recv) with
          | Ok c' => (Ok "[sync] clock adjusted", c', q)
          | Raise e => (Raise e, clock a, q)
          end
        else (Ok "[sync] invalid server time", clock a, q)
    end.

(** The line appended by the [try] block or by its [except] clause. *)
Definition report (res : result string) : chat_line :=
  match res with
  | Ok s => Line s
  | Raise e => SyncError e
  end.

(** [ClientApp.sync_with_server]. *)
Definition sync_with_server (r : round) (a : ClientApp) : ClientApp :=
  if negb (running a) then a
  else
    let '(res, c, q) := sync_try r a in
    {| running := running a;
       clock := c;
       ui_queue := q;
       chat := chat a ++ [report res];
       timers := timers a ++ [(5000, TaskSync)] |}.

(** The wait loop of a round ends without a reply. *)
Definition no_reply (r : round) (a : ClientApp) : Prop :=
  ∀ d, fst (wait_reply (sched r) (ui_queue a)) ≠ Ok (Some d).

(** The wait loop of a round finds a reply whose [server_time] fails
    [isinstance(server_time, (int, float))]. *)
Definition reply_not_numeric (r : round) (a : ClientApp) : Prop :=
  ∃ d, fst (wait_reply (sched r) (ui_queue a)) = Ok (Some d)
       ∧ PyNum.is_int_or_float (dict_get d "server_time" PNone) = false.

(** A JSON number: an [int] or a [float]; a JSON boolean is not one. *)
Definition is_number (v : pyval) : bool :=
  match v with
  | PInt _ | PFloat _ => true
  | _ => false
  end.

Definition is_bool (v : pyval) : bool :=
  match v with
  | PBool _ => true
  | _ => false
  end.

(** The wait loop of a round finds a reply whose [server_time] is
    missing, or is neither a number nor a boolean. *)
Definition reply_unusable (r : round) (a : ClientApp) : Prop :=
  ∃ d, fst (wait_reply (sched r) (ui_queue a)) = Ok (Some d)
       ∧ is_number (dict_get d "server_time" PNone) = false
       ∧ is_bool (dict_get d "server_time" PNone) = false.

(** The lines with which a round reports that the clock was not adjusted. *)
Definition failure_line (l : chat_line) : bool :=
  match l with
  | Line s => String.eqb s "[sync] no reply"
              || String.eqb s "[sync] invalid server time"
  | SyncError _ => true
  end.

(** Records used in examples. *)
Definition chat_a : pydict := [("type", PStr "chat"); ("text", PStr "a")].
Definition chat_b : pydict := [("type", PStr "chat"); ("text", PStr "b")].
Definition app0 : ClientApp :=
  {| running := true; clock := Clock_init 0%float;
     ui_queue := [PDict chat_a]; chat := []; timers := [] |}.
Definition round0 : round :=
  {| wall_send := 10%float; send_ok := true; sched := [quiet; quiet];
     wall_recv := 11%float |}.

(** A record that is empty or made of whitespace only. *)
Fixpoint all_space (s : string) : bool :=
  match s with
  | String c s' => is_space c && all_space s'
  | EmptyString => true
  end.

(** A registry for examples. *)
Definition world_of (cs : gset conn) : world := {| clients := cs; trace := [] |}.

(** The connections [broadcast] writes to: the registry in iteration
    order, without the excluded one. *)
Definition targets (exclude : option conn) (cs : list conn) : list conn :=
  filter (λ c, is_exclude c exclude = false) cs.

(** ** The framing codec: [json.dumps], [json.loads] and line framing

    Python strings are modelled by [string]: sequences of code points
    below 256.  [json.dumps] is called with its defaults ([ensure_ascii],
    separators [", "] and [": "]).  The text of a finite float
    ([float.__repr__]) and its reading ([float(s)]) are CPython built-ins;
    they are parameters of the codec. *)

Definition dquote : ascii := "034"%char.
Definition backslash : ascii := "092"%char.
Definition newline : ascii := "010"%char.

Definition is_digit (c : ascii) : bool :=
  let n := nat_of_ascii c in ((48 <=? n) && (n <=? 57))%nat.

Definition hex_char (n : nat) : ascii :=
  nth n ["0"; "1"; "2"; "3"; "4"; "5"; "6"; "7"; "8"; "9";
         "a"; "b"; "c"; "d"; "e"; "f"]%char "0"%char.

Definition hex_val (c : ascii) : option nat :=
  let n := nat_of_ascii c in
  if ((48 <=? n) && (n <=? 57))%nat then Some (n - 48)%nat
  else if ((97 <=? n) && (n <=? 102))%nat then Some (n - 87)%nat
  else if ((65 <=? n) && (n <=? 70))%nat then Some (n - 55)%nat
  else None.

(** [ESCAPE_ASCII] / [ESCAPE_DCT] of [json.encoder]: the text of one
    character inside a string literal. *)
Definition escape_char (c : ascii) : string :=
  let n := nat_of_ascii c in
  if Ascii.eqb c dquote then String backslash (String dquote EmptyString)
  else if Ascii.eqb c backslash then String backslash (String backslash EmptyString)
  else if (n =? 10)%nat then String backslash "n"
  else if (n =? 13)%nat then String backslash "r"
  else if (n =? 9)%nat then String backslash "t"
  else if (n =? 12)%nat then String backslash "f"
  else if (n =? 8)%nat then String backslash "b"
  else if ((32 <=? n) && (n <=? 126))%nat then String c EmptyString
  else String backslash
         (String "u" (String "0" (String "0"
            (String (hex_char (n / 16)) (String (hex_char (n mod 16))
               EmptyString))))).

Fixpoint escape (s : string) : string :=
  match s with
  | String c s' => escape_char c +:+ escape s'
  | EmptyString => EmptyString
  end.

(** A string literal. *)
Definition quote (s : string) : string :=
  String dquote (escape s +:+ String dquote EmptyString).

(** The decimal text of an [int]: what [int.__repr__] returns when it
    returns.  CPython refuses to convert an [int] of more than
    [int_max_str_digits] digits to text, and a text of more digits to an
    [int]: both conversions raise [ValueError] (see [json_dumps] and
    [parse_value]). *)
Definition int_repr (z : Z) : string := NilEmpty.string_of_int (Z.to_int z).

(** [sys.get_int_max_str_digits()], at CPython's default. *)
Definition int_max_str_digits : nat := 4300.

(** The number of decimal digits of [z]. *)
Definition int_digits (z : Z) : nat := String.length (int_repr (Z.abs z)).

(** The number of digits of an integer token of [NUMBER_RE]. *)
Definition token_digits (tok : string) : nat :=
  match tok with
  | String c t => if Ascii.eqb c "-" then String.length t else String.length tok
  | EmptyString => O
  end.

(** [int(tok)] for a token matched by the integer part of [NUMBER_RE]. *)
Definition int_of_str (tok : string) : Z :=
  match NilEmpty.int_of_string tok with
  | Some d => Z.of_int d
  | None => 0
  end.

(** Floats that [json.dumps] spells by name. *)
Definition is_special (f : float) : bool :=
  negb (f =? f)%float || (f =? infinity)%float || (f =? neg_infinity)%float.

Fixpoint join_with (sep : string) (l : list string) : string :=
  match l with
  | [] => EmptyString
  | [x] => x
  | x :: l' => x +:+ sep +:+ join_with sep l'
  end.

(** [BACKSLASH] of [json.decoder]: the character after a backslash. *)
Definition unescape (e : ascii) : option ascii :=
  if Ascii.eqb e dquote then Some dquote
  else if Ascii.eqb e backslash then Some backslash
  else if Ascii.eqb e "/" then Some "/"%char
  else if Ascii.eqb e "b" then Some "008"%char
  else if Ascii.eqb e "f" then Some "012"%char
  else if Ascii.eqb e "n" then Some "010"%char
  else if Ascii.eqb e "r" then Some "013"%char
  else if Ascii.eqb e "t" then Some "009"%char
  else None.

Definition hex4 (h1 h2 h3 h4 : ascii) : option nat :=
  a ← hex_val h1; b ← hex_val h2; c ← hex_val h3; d ← hex_val h4;
  Some (((a * 16 + b) * 16 + c) * 16 + d)%nat.

Definition cons_scanned (c : ascii) (r : option (string * string))
  : option (string * string) :=
  match r with
  | Some (s, rest) => Some (String c s, rest)
  | None => None
  end.

(** [py_scanstring] in strict mode, started after the opening quote: the
    string and the text after the closing quote.  An escape that denotes
    a code point above 255 is outside the modelled alphabet. *)
Fixpoint scan_string (s : string) : option (string * string) :=
  match s with
  | EmptyString => None
  | String c s' =>
      if Ascii.eqb c dquote then Some (EmptyString, s')
      else if Ascii.eqb c backslash then
        match s' with
        | String e s'' =>
            if Ascii.eqb e "u" then
              match s'' with
              | String h1 (String h2 (String h3 (String h4 r))) =>
                  match hex4 h1 h2 h3 h4 with
                  | Some n =>
                      if (n <? 256)%nat
                      then cons_scanned (ascii_of_nat n) (scan_string r)
                      else None
                  | None => None
                  end
              | _ => None
              end
            else
              match unescape e with
              | Some c' => cons_scanned c' (scan_string s'')
              | None => None
              end
        | EmptyString => None
        end
      else if (nat_of_ascii c <? 32)%nat then None
      else cons_scanned c (scan_string s')
  end.

(** JSON whitespace. *)
Definition is_json_ws (c : ascii) : bool :=
  let n := nat_of_ascii c in
  ((n =? 32) || (n =? 9) || (n =? 10) || (n =? 13))%nat.

Fixpoint skip_ws (s : string) : string :=
  match s with
  | String c s' => if is_json_ws c then skip_ws s' else s
  | EmptyString => EmptyString
  end.

Fixpoint strip_prefix (p s : string) : option string :=
  match p, s with
  | EmptyString, _ => Some s
  | String a p', String b s' => if Ascii.eqb a b then strip_prefix p' s' else None
  | String _ _, EmptyString => None
  end.

(** The longest run of digits at the head of [s], and what follows. *)
Fixpoint span_digits (s : string) : string * string :=
  match s with
  | String c s' =>
      if is_digit c then
        let '(d, r) := span_digits s' in (String c d, r)
      else (EmptyString, s)
  | EmptyString => (EmptyString, EmptyString)
  end.

(** The optional group [(\.[0-9]+)?] of [NUMBER_RE]. *)
Definition scan_frac (s : string) : string * string :=
  match s with
  | String c s' =>
      if Ascii.eqb c "." then
        match span_digits s' with
        | (EmptyString, _) => (EmptyString, s)
        | (d, r) => (String c d, r)
        end
      else (EmptyString, s)
  | EmptyString => (EmptyString, s)
  end.

(** The optional group [([eE][-+]?[0-9]+)?] of [NUMBER_RE]. *)
Definition scan_exp (s : string) : string * string :=
  match s with
  | String c s' =>
      if Ascii.eqb c "e" || Ascii.eqb c "E" then
        let '(sg, s'') :=
          match s' with
          | String c2 r2 =>
              if Ascii.eqb c2 "+" || Ascii.eqb c2 "-"
              then (String c2 EmptyString, r2) else (EmptyString, s')
          | EmptyString => (EmptyString, s')
          end in
        match span_digits s'' with
        | (EmptyString, _) => (EmptyString, s)
        | (d, r) => (String c (sg +:+ d), r)
        end
      else (EmptyString, s)
  | EmptyString => (EmptyString, s)
  end.

(** [NUMBER_RE.match]: the token, whether it has a fraction or an
    exponent (and so is read as a float), and the text after it. *)
Definition scan_number (s : string) : option (string * bool * string) :=
  let '(sign, s1) :=
    match s with
    | String c s' =>
        if Ascii.eqb c "-" then (String c EmptyString, s') else (EmptyString, s)
    | EmptyString => (EmptyString, s)
    end in
  match s1 with
  | String c s2 =>
      if is_digit c then
        let '(int_part, r) :=
          if Ascii.eqb c "0" then (String c EmptyString, s2)
          else span_digits s1 in
        let '(frac, r1) := scan_frac r in
        let '(exp, r2) := scan_exp r1 in
        Some (sign +:+ int_part +:+ frac +:+ exp,
              negb (String.eqb frac EmptyString && String.eqb exp EmptyString),
              r2)
      else None
  | EmptyString => None
  end.

(** [d[k] = v] on an insertion-ordered dict. *)
Fixpoint dict_set (k : string) (v : pyval) (d : pydict) : pydict :=
  match d with
  | [] => [(k, v)]
  | (k', v') :: d' =>
      if String.eqb k k' then (k, v) :: d' else (k', v') :: dict_set k v d'
  end.

(** A text that cannot continue a number token: the end of the input, or
    a character that is not a digit, a point or an exponent mark. *)
Definition delim_start (s : string) : bool :=
  match s with
  | EmptyString => true
  | String c _ =>
      negb (is_digit c || Ascii.eqb c "." || Ascii.eqb c "e" || Ascii.eqb c "E")
  end.

(** The values a field of a protocol record holds and [json.dumps]
    writes: [None], a [bool], a [float], a [str], or an [int] of at most
    [int_max_str_digits] digits. *)
Definition scalar (v : pyval) : bool :=
  match v with
  | PList _ | PDict _ => false
  | PInt z => (int_digits z <=? int_max_str_digits)%nat
  | _ => true
  end.

(** A record with distinct keys and scalar fields. *)
Definition flat (d : pydict) : Prop :=
  NoDup (map fst d) ∧ Forall (λ kv, scalar (snd kv) = true) d.

(** No [int] in the value has more than [int_max_str_digits] digits. *)
Fixpoint dumpable (v : pyval) : bool :=
  match v with
  | PInt z => (int_digits z <=? int_max_str_digits)%nat
  | PList l => forallb dumpable l
  | PDict d => forallb (λ kv, dumpable (snd kv)) d
  | _ => true
  end.

(** A text without a line terminator. *)
Fixpoint no_newline (s : string) : bool :=
  match s with
  | String c s' => negb (Ascii.eqb c newline) && no_newline s'
  | EmptyString => true
  end.

(** Decimal digits with a non-zero leading digit. *)
Definition nonzero_head (d : Decimal.uint) : Prop :=
  match d with
  | Decimal.Nil | Decimal.D0 _ => False
  | _ => True
  end.

Section Codec.

(** [float.__repr__] of a finite float, and [float(tok)]. *)
Variable float_repr : float -> string.
Variable float_of_str : string -> float.

(** [floatstr] of [json.encoder]. *)
Definition float_text (f : float) : string :=
  if negb (f =? f)%float then "NaN"
  else if (f =? infinity)%float then "Infinity"
  else if (f =? neg_infinity)%float then "-Infinity"
  else float_repr f.

(** The text [json.dumps(obj)] returns, when it returns (see
    [json_dumps]). *)
Fixpoint dumps (v : pyval) : string :=
  match v with
  | PNone => "null"
  | PBool true => "true"
  | PBool false => "false"
  | PInt z => int_repr z
  | PFloat f => float_text f
  | PStr s => quote s
  | PList l => "[" +:+ join_with ", " (map dumps l) +:+ "]"
  | PDict d =>
      "{" +:+ join_with ", "
                (map (λ kv, quote (fst kv) +:+ ": " +:+ dumps (snd kv)) d)
          +:+ "}"
  end.

(** [json.dumps(obj)]: the encoder raises [ValueError] when it meets an
    [int] whose text would exceed the digit limit.  (The interpreter's
    bound on the nesting depth is outside this function; the records of
    the protocol are not nested.) *)
Definition json_dumps (v : pyval) : result string :=
  if dumpable v then Ok (dumps v) else Raise ValueError.

(** The text of one member of an object. *)
Definition member_text (kv : string * pyval) : string :=
  quote (fst kv) +:+ ": " +:+ dumps (snd kv).

(** [scan_once] of [json.scanner] with the object and array parsers of
    [json.decoder]; [fuel] bounds the nesting and the number of members
    ([loads] gives more fuel than the text has characters, so it does not
    run out).  A text that is not JSON raises [JSONDecodeError]; an
    integer literal of more than [int_max_str_digits] digits raises
    [ValueError] from [int].  [parse_members] starts after the opening
    quote of a key. *)
Fixpoint parse_value (fuel : nat) (s : string) : result (pyval * string) :=
  match fuel with
  | O => Raise RecursionError
  | S fuel' =>
      match s with
      | EmptyString => Raise JSONDecodeError
      | String c s' =>
          if Ascii.eqb c dquote then
            match scan_string s' with
            | Some (str, r) => Ok (PStr str, r)
            | None => Raise JSONDecodeError
            end
          else if Ascii.eqb c "{" then
            match skip_ws s' with
            | String c1 r1 =>
                if Ascii.eqb c1 "}" then Ok (PDict [], r1)
                else if Ascii.eqb c1 dquote then
                  match parse_members fuel' r1 [] with
                  | Ok (d, r) => Ok (PDict d, r)
                  | Raise e => Raise e
                  end
                else Raise JSONDecodeError
            | EmptyString => Raise JSONDecodeError
            end
          else if Ascii.eqb c "[" then
            match skip_ws s' with
            | String c1 r1 =>
                if Ascii.eqb c1 "]" then Ok (PList [], r1)
                else
                  match parse_elements fuel' (String c1 r1) with
                  | Ok (l, r) => Ok (PList l, r)
                  | Raise e => Raise e
                  end
            | EmptyString => Raise JSONDecodeError
            end
          else
            match strip_prefix "null" s with
            | Some r => Ok (PNone, r)
            | None =>
            match strip_prefix "true" s with
            | Some r => Ok (PBool true, r)
            | None =>
            match strip_prefix "false" s with
            | Some r => Ok (PBool false, r)
            | None =>
            match scan_number s with
            | Some (tok, is_float, r) =>
                if is_float then Ok (PFloat (float_of_str tok), r)
                else if (token_digits tok <=? int_max_str_digits)%nat
                     then Ok (PInt (int_of_str tok), r)
                     else Raise ValueError
            | None =>
            match strip_prefix "NaN" s with
            | Some r => Ok (PFloat nan, r)
            | None =>
            match strip_prefix "Infinity" s with
            | Some r => Ok (PFloat infinity, r)
            | None =>
            match strip_prefix "-Infinity" s with
            | Some r => Ok (PFloat neg_infinity, r)
            | None => Raise JSONDecodeError
            end end end end end end end
      end
  end
with parse_members (fuel : nat) (s : string) (acc : pydict)
  : result (pydict * string) :=
  match fuel with
  | O => Raise RecursionError
  | S fuel' =>
      match scan_string s with
      | Some (key, r) =>
          match skip_ws r with
          | String c r1 =>
              if Ascii.eqb c ":" then
                match parse_value fuel' (skip_ws r1) with
                | Ok (v, r2) =>
                    let acc' := dict_set key v acc in
                    match skip_ws r2 with
                    | String c2 r3 =>
                        if Ascii.eqb c2 "}" then Ok (acc', r3)
                        else if Ascii.eqb c2 "," then
                          match skip_ws r3 with
                          | String c3 r4 =>
                              if Ascii.eqb c3 dquote
                              then parse_members fuel' r4 acc'
                              else Raise JSONDecodeError
                          | EmptyString => Raise JSONDecodeError
                          end
                        else Raise JSONDecodeError
                    | EmptyString => Raise JSONDecodeError
                    end
                | Raise e => Raise e
                end
              else Raise JSONDecodeError
          | EmptyString => Raise JSONDecodeError
          end
      | None => Raise JSONDecodeError
      end
  end
with parse_elements (fuel : nat) (s : string) : result (list pyval * string) :=
  match fuel with
  | O => Raise RecursionError
  | S fuel' =>
      match parse_value fuel' s with
      | Ok (v, r) =>
          match skip_ws r with
          | String c r1 =>
              if Ascii.eqb c "]" then Ok ([v], r1)
              else if Ascii.eqb c "," then
                match parse_elements fuel' (skip_ws r1) with
                | Ok (l, r2) => Ok (v :: l, r2)
                | Raise e => Raise e
                end
              else Raise JSONDecodeError
          | EmptyString => Raise JSONDecodeError
          end
      | Raise e => Raise e
      end
  end.

(** [json.loads(s)] on a text of the modelled alphabet.  Two things of
    CPython are outside this function: a [\u] escape that denotes a code
    point above 255 has no value in [string] ([scan_string] gives up on
    it), and the interpreter's bound on the nesting depth, beyond which
    it raises [RecursionError]. *)
Definition loads (s : string) : result pyval :=
  match parse_value (S (String.length s)) (skip_ws s) with
  | Ok (v, r) =>
      match skip_ws r with
      | EmptyString => Ok v
      | _ => Raise JSONDecodeError         (* extra data *)
      end
  | Raise e => Raise e
  end.

(** The bytes [send_json] hands to [sendall] when [json.dumps] returns:
    the output of [dumps] is ASCII, so its UTF-8 encoding is the text
    itself. *)
Definition encode (obj : pyval) : string :=
  dumps obj +:+ String newline EmptyString.

(** The first line of [send_json], [json.dumps(obj)] followed by a line
    terminator and encoded: the bytes, or the exception that ends
    [send_json] before anything is written. *)
Definition send_data (obj : pyval) : result string :=
  text ← json_dumps obj; Ok (text +:+ String newline EmptyString).

(** One step of [for line in f] on the text still to be read: the next
    line with its terminator, and the rest of the stream. *)
Fixpoint readline (stream : string) : option (string * string) :=
  match stream with
  | EmptyString => None
  | String c s' =>
      if Ascii.eqb c newline then Some (String c EmptyString, s')
      else
        match readline s' with
        | Some (l, r) => Some (String c l, r)
        | None => Some (String c EmptyString, EmptyString)
        end
  end.

(** What the server's read loop makes of one line: the decoded value,
    [None] when the line is skipped (blank, or not JSON), or the exception
    that ends the loop. *)
Definition decode (line : string) : result (option pyval) :=
  match strip line with
  | EmptyString => Ok None
  | l =>
      match loads l with
      | Ok v => Ok (Some v)
      | Raise JSONDecodeError => Ok None
      | Raise e => Raise e
      end
  end.

End Codec.

(** A float text for examples.  It is not Python's shortest [repr]: it
    spells the sign, the integer mantissa and the binary exponent of the
    float in decimal, as a number literal with an exponent part, and
    [fields_parse] reads such a literal back. *)
Definition exp_sign (e : Z) : ascii :=
  if (e <? 0)%Z then "-"%char else "+"%char.

Definition fields_text (sg : bool) (m : N) (e : Z) : string :=
  (if sg then "-" else "")
    +:+ NilEmpty.string_of_uint (N.to_uint m)
    +:+ String "e" (String (exp_sign e)
                      (NilEmpty.string_of_uint (N.to_uint (Z.abs_N e)))).

Definition fields_repr (f : float) : string :=
  match Prim2SF f with
  | S754_zero s => fields_text s 0 0
  | S754_infinity s => fields_text s 0 1
  | S754_nan => fields_text false 0 2
  | S754_finite s m e => fields_text s (Npos m) e
  end.

Definition uint_of_digits (s : string) : Decimal.uint :=
  match NilEmpty.uint_of_string s with
  | Some d => d
  | None => Decimal.Nil
  end.

Definition fields_value (sg : bool) (m : N) (e : Z) : spec_float :=
  match m with
  | N0 => if (e =? 0)%Z then S754_zero sg
          else if (e =? 1)%Z then S754_infinity sg else S754_nan
  | Npos p => S754_finite sg p e
  end.

Definition fields_parse (tok : string) : float :=
  let '(sg, t) :=
    match tok with
    | String c t' => if Ascii.eqb c "-" then (true, t') else (false, tok)
    | EmptyString => (false, tok)
    end in
  let '(md, t1) := span_digits t in
  match t1 with
  | String _ (String sc t2) =>
      let ea := Z.of_N (N.of_uint (uint_of_digits (fst (span_digits t2)))) in
      let e := if Ascii.eqb sc "-" then - ea else ea in
      SF2Prim (fields_value sg (N.of_uint (uint_of_digits md)) e)
  | _ => nan
  end.






(** ** server.py: the handler in steps, and the accept loop *)

(** The pieces of Joining and Leaving, each one critical section or one
    socket call of [handle_client]. *)
Definition register (conn0 : conn) (w : world) : world :=
  {| clients := {[conn0]} ∪ clients w;
     trace := trace w ++ [EvAcquire; EvAdd conn0; EvRelease] |}.

Definition unregister (conn0 : conn) (w : world) : world :=
  if bool_decide (conn0 ∈ clients w) then
    {| clients := clients w ∖ {[conn0]};
       trace := trace w ++ [EvAcquire; EvDiscard conn0; EvRelease] |}
  else emit [EvAcquire; EvRelease] w.

Definition close_conn (conn0 : conn) (w : world) : world :=
  emit [EvClose conn0] w.

(** Where a handler thread stands. *)
Inductive phase : Type :=
| Accepted          (* thread started, [clients.add] not yet done *)
| Registered        (* added; [makefile] and the join notice pending *)
| Active            (* in the read loop *)
| Exiting           (* the [try] block is over; [finally] not yet run *)
| Unregistered      (* removed from [clients]; [close] pending *)
| Closing           (* closed; the leave notice pending *)
| Closed.

(** The server process: the shared world and one phase per accepted
    connection. *)
Record server : Type := mkServer {
  shared : world;
  handlers : gmap conn phase
}.

(** A walk along a trace that checks the use of [clients_lock]: it is
    never acquired while held (a [threading.Lock] would block for ever),
    never released while free, and [clients] is only changed while it is
    held.  The result is whether the lock is held at the end. *)
Fixpoint lock_walk (held : bool) (tr : list event) : option bool :=
  match tr with
  | [] => Some held
  | EvAcquire :: tr' => if held then None else lock_walk true tr'
  | EvRelease :: tr' => if held then lock_walk false tr' else None
  | EvAdd _ :: tr' => if held then lock_walk held tr' else None
  | EvDiscard _ :: tr' => if held then lock_walk held tr' else None
  | _ :: tr' => lock_walk held tr'
  end.

Section AcceptLoop.

Variable loads : string -> result pyval.

(** One step of one handler thread started by [main], or the accept of
    a new connection.  The threads interleave at the grain of these
    steps: the registry is only touched inside [clients_lock]. *)
Inductive server_step : server -> server -> Prop :=
| step_accept c s :
    handlers s !! c = None ->
    server_step s {| shared := shared s;
                     handlers := <[c := Accepted]> (handlers s) |}
| step_register c s :
    handlers s !! c = Some Accepted ->
    server_step s {| shared := register c (shared s);
                     handlers := <[c := Registered]> (handlers s) |}
| step_makefile_fails c s :
    handlers s !! c = Some Registered ->
    server_step s {| shared := shared s;
                     handlers := <[c := Exiting]> (handlers s) |}
| step_join_notice c addr net s :
    handlers s !! c = Some Registered ->
    server_step s {| shared := broadcast net (PDict (info (addr +:+ " joined")))
                                         None (shared s);
                     handlers := <[c := Active]> (handlers s) |}
| step_line c i s :
    handlers s !! c = Some Active ->
    server_step s
      {| shared := snd (handle_line loads (in_net i) (in_now i) c (in_line i)
                                    (shared s));
         handlers :=
           <[c := match fst (handle_line loads (in_net i) (in_now i) c
                                         (in_line i) (shared s)) with
                  | Ok _ => Active
                  | Raise _ => Exiting
                  end]> (handlers s) |}
| step_eof c s :
    handlers s !! c = Some Active ->
    server_step s {| shared := shared s;
                     handlers := <[c := Exiting]> (handlers s) |}
| step_unregister c s :
    handlers s !! c = Some Exiting ->
    server_step s {| shared := unregister c (shared s);
                     handlers := <[c := Unregistered]> (handlers s) |}
| step_close c s :
    handlers s !! c = Some Unregistered ->
    server_step s {| shared := close_conn c (shared s);
                     handlers := <[c := Closing]> (handlers s) |}
| step_leave_notice c addr net s :
    handlers s !! c = Some Closing ->
    server_step s {| shared := broadcast net (PDict (info (addr +:+ " left")))
                                         None (shared s);
                     handlers := <[c := Closed]> (handlers s) |}.

End AcceptLoop.

(** A handler that has added itself to [clients] and has not yet run the
    removal of its [finally] block. *)
Definition in_session (p : option phase) : Prop :=
  p = Some Registered ∨ p = Some Active ∨ p = Some Exiting.

(** Every registered connection belongs to a handler in session. *)
Definition registry_tracked (s : server) : Prop :=
  ∀ c, c ∈ clients (shared s) → in_session (handlers s !! c).

(** [w'] comes after [w] by events that use the lock properly and leave
    it free. *)
Definition steady (w w' : world) : Prop :=
  ∃ evs, trace w' = trace w ++ evs ∧ lock_walk false evs = Some false.

(** The server before any connection is accepted. *)
Definition server_init : server :=
  {| shared := world_of ∅; handlers := ∅ |}.

(** ** client.py: the receiver thread, the consumer and the sender *)

(** [for line in f] on a text stream: the lines, each with its terminator
    (the last one may lack it). *)
Fixpoint file_lines (fuel : nat) (stream : string) : list string :=
  match fuel with
  | O => []
  | S fuel' =>
      match readline stream with
      | Some (l, r) => l :: file_lines fuel' r
      | None => []
      end
  end.

Definition iter_lines (stream : string) : list string :=
  file_lines (String.length stream) stream.

(** The notice queued by the [finally] block of [receiver_loop]. *)
Definition disconnected : pydict := info "[system] disconnected".

(** The value of a computation whose exceptions are all caught and
    dropped, if it has one. *)
Definition caught {A : Type} (r : result A) : option A :=
  match r with
  | Ok a => Some a
  | Raise _ => None
  end.

Section Receiver.

Variable loads : string -> result pyval.

(** The [for] loop of [receiver_loop]: each element is the value of
    [self.running] when the line is looked at, and the line.  Here every
    exception of [json.loads] is caught ([except Exception: continue]). *)
Fixpoint receive (ins : list (bool * string)) (q : list pyval) : list pyval :=
  match ins with
  | [] => q
  | (run, line) :: ins' =>
      if run then
        match loads (strip line) with
        | Ok msg => receive ins' (q ++ [msg])
        | Raise _ => receive ins' q         (* [except Exception: continue] *)
        end
      else q
  end.

(** [ClientApp.receiver_loop]: the queue it leaves. *)
Definition receiver_loop (ins : list (bool * string)) (q : list pyval)
  : list pyval :=
  receive ins q ++ [PDict disconnected].

End Receiver.

(** Truth value of an object. *)
Definition truthy (v : pyval) : bool :=
  match v with
  | PNone => false
  | PBool b => b
  | PInt z => negb (z =? 0)%Z
  | PFloat f => negb (f =? 0)%float
  | PStr s => negb (String.eqb s EmptyString)
  | PList l => match l with [] => false | _ => true end
  | PDict d => match d with [] => false | _ => true end
  end.

Section Display.

(** [ClientApp.format_ts] ([time.strftime] of [time.localtime(ts)]), the
    text of a value that is not a [str] inside an f-string, and the text
    of an exception. *)
Variable format_ts : pyval -> result string.
Variable py_str : pyval -> string.
Variable describe : exn -> string.

(** A value inside an f-string. *)
Definition fmt (v : pyval) : string :=
  match v with
  | PStr s => s
  | _ => py_str v
  end.

(** [self.format_ts(ts) if ts else "--:--:--"]. *)
Definition stamp (ts : pyval) : result string :=
  if truthy ts then format_ts ts else Ok "--:--:--".

(** What [process_ui_queue] appends for one dict: a line, nothing, or an
    exception ([append_chat] adds a newline to its argument, which must
    be a [str]). *)
Definition display (d : pydict) : result (option string) :=
  let mtype := dict_get d "type" PNone in
  if py_eq_str mtype "chat" then
    let from_user := dict_get d "from" (PStr "?") in
    let text := dict_get d "text" (PStr "") in
    left ← stamp (dict_get d "client_ts" PNone);
    right ← stamp (dict_get d "server_ts" PNone);
    Ok (Some ("[client " +:+ left +:+ " | server " +:+ right +:+ "] "
              +:+ fmt from_user +:+ ": " +:+ fmt text))
  else if py_eq_str mtype "info" then
    match dict_get d "text" (PStr "[info]") with
    | PStr s => Ok (Some s)
    | _ => Raise TypeError
    end
  else Ok None.

(** The [while True] loop of [process_ui_queue] on the queue as it
    stands (nothing arriving meanwhile): how it ends, what is left on
    the queue, and the chat. *)
Fixpoint drain (q : list pyval) (lines : list chat_line)
  : result unit * list pyval * list chat_line :=
  match q with
  | [] => (Ok tt, [], lines)
  | msg :: q' =>
      match msg with
      | PDict d =>
          match display d with
          | Ok (Some l) => drain q' (lines ++ [Line l])
          | Ok None => drain q' lines
          | Raise e => (Raise e, q', lines)
          end
      | _ => (Raise AttributeError, q', lines)
      end
  end.

(** [ClientApp.process_ui_queue]: an exception leaves the callback before
    [self.master.after(50, ...)]. *)
Definition process_ui_queue (a : ClientApp) : ClientApp :=
  let '(res, q, lines) := drain (ui_queue a) (chat a) in
  {| running := running a;
     clock := clock a;
     ui_queue := q;
     chat := lines;
     timers := match res with
               | Ok _ => timers a ++ [(50, TaskUi)]
               | Raise _ => timers a
               end |}.

(** A queued message that [process_ui_queue] gets through: a dict whose
    display does not raise. *)
Definition displayable (m : pyval) : Prop :=
  ∃ d o, m = PDict d ∧ display d = Ok o.

(** The lines that a run of queued messages adds to the chat. *)
Definition shown (q : list pyval) : list chat_line :=
  flat_map (λ m, match m with
                 | PDict d => match display d with
                              | Ok (Some l) => [Line l]
                              | _ => []
                              end
                 | _ => []
                 end) q.

(** The dict built by [send_msg]. *)
Definition chat_msg (username text : string) (client_ts : float) : pydict :=
  [("type", PStr "chat"); ("from", PStr username); ("text", PStr text);
   ("client_ts", PFloat client_ts)].

(** What [send_msg] does: the record handed to [send_json] (if any), the
    client afterwards, and the content of the entry widget. *)
Record sending : Type := mkSending {
  handed : option pydict;
  client_after : ClientApp;
  entry_after : string
}.

(** [ClientApp.send_msg] with [entry] in the widget, the wall clock at
    [wall], and [sendall] succeeding or not. *)
Definition send_msg (username entry : string) (wall : float) (ok : bool)
           (a : ClientApp) : sending :=
  match strip entry with
  | EmptyString =>
      {| handed := None; client_after := a; entry_after := entry |}
  | text =>
      let client_ts := now_local (clock a) wall in
      let line :=
        if ok then
          match format_ts (PFloat client_ts) with
          | Ok s => "[" +:+ s +:+ "] you: " +:+ text
          | Raise e => "[error] " +:+ describe e
          end
        else "[error] " +:+ describe OSError in
      {| handed := Some (chat_msg username text client_ts);
         client_after :=
           {| running := running a; clock := clock a; ui_queue := ui_queue a;
              chat := chat a ++ [Line line]; timers := timers a |};
         entry_after := EmptyString |}
  end.

End Display.

(** One move of [wait_reply] on a queue nobody else touches: the head
    goes to the tail. *)
Definition requeue (q : list pyval) : list pyval :=
  match q with
  | [] => []
  | msg :: q' => q' ++ [msg]
  end.

(** A queued JSON object that is not a [sync_reply]. *)
Definition is_plain (m : pyval) : bool :=
  match m with
  | PDict d => negb (is_sync_reply d)
  | _ => false
  end.

(** What successive [send_json] calls put on a connection: the encoded
    records one after the other. *)
Definition wire (float_repr : float -> string) (ds : list pydict) : string :=
  foldr (λ d s, encode float_repr (PDict d) +:+ s) EmptyString ds.

(** The record [sync_with_server] sends. *)
Definition sync_request : pydict := [("type", PStr "sync_request")].

(** A tick of the wait loop during which the receiver thread reads the
    lines [lines] and queues what they decode to. *)
Definition arrival (loads : string -> result pyval) (lines : list string)
  : tick :=
  {| before_get := receive loads (map (λ l, (true, l)) lines) [];
     before_put := [] |}.

(* ================================================================== *)
(** * Properties *)

(** ** Broadcaster *)

Lemma fan_out_eq net m ex cs :
  fan_out net m ex cs
  = (filter (λ c, net c = false) (targets ex cs),
     map (λ c, EvSend c m (net c)) (targets ex cs)).
Proof.
  unfold targets. induction cs as [|c cs IH]; [done|].
  cbn [fan_out]. rewrite IH, filter_cons.
  destruct (is_exclude c ex) eqn:Hex.
  - rewrite decide_False by congruence. done.
  - rewrite decide_True by done. rewrite filter_cons.
    destruct (net c) eqn:Hnet.
    + rewrite decide_False by congruence. cbn. by rewrite Hnet.
    + rewrite decide_True by done. cbn. by rewrite Hnet.
Qed.

Lemma discard_all_eq dead (s : gset conn) :
  discard_all dead s = s ∖ list_to_set dead.
Proof.
  revert s. induction dead as [|d dead IH]; intros s; cbn.
  - set_solver.
  - rewrite IH. set_solver.
Qed.

Lemma since_emit w cl evs :
  since w {| clients := cl; trace := trace w ++ evs |} = evs.
Proof. unfold since. cbn. by rewrite drop_app_length. Qed.

Lemma broadcast_since net m ex w :
  since w (broadcast net m ex w)
  = [EvAcquire]
      ++ map (λ c, EvSend c m (net c)) (targets ex (elements (clients w)))
      ++ map EvDiscard
           (filter (λ c, net c = false) (targets ex (elements (clients w))))
      ++ [EvRelease].
Proof. unfold broadcast. rewrite fan_out_eq. by rewrite since_emit. Qed.

Lemma broadcast_clients net m ex w :
  clients (broadcast net m ex w)
  = clients w
      ∖ list_to_set
          (filter (λ c, net c = false) (targets ex (elements (clients w)))).
Proof. unfold broadcast. rewrite fan_out_eq. cbn. apply discard_all_eq. Qed.

Lemma broadcast_trace net m ex w :
  trace (broadcast net m ex w) = trace w ++ since w (broadcast net m ex w).
Proof. rewrite broadcast_since. unfold broadcast. by rewrite fan_out_eq. Qed.

Lemma elem_of_targets ex (s : gset conn) c :
  c ∈ targets ex (elements s) ↔ c ∈ s ∧ ex ≠ Some c.
Proof.
  unfold targets. rewrite list_elem_of_filter, elem_of_elements.
  unfold is_exclude. destruct ex as [e|].
  - destruct (Nat.eqb_spec c e); naive_solver.
  - naive_solver.
Qed.

Lemma is_exclude_false c ex : is_exclude c ex = false ↔ ex ≠ Some c.
Proof.
  unfold is_exclude. destruct ex as [e|]; [|naive_solver].
  destruct (Nat.eqb_spec c e); naive_solver.
Qed.

Lemma elem_of_broadcast_since net m ex w c m' ok :
  EvSend c m' ok ∈ since w (broadcast net m ex w)
  ↔ m' = m ∧ (c ∈ clients w ∧ ex ≠ Some c) ∧ ok = net c.
Proof.
  rewrite broadcast_since. rewrite !elem_of_app, !list_elem_of_fmap.
  rewrite !list_elem_of_singleton. split.
  - intros [?|[(c' & [= -> -> ->] & Hc)|[(c' & ? & _)|?]]]; try discriminate.
    by apply elem_of_targets in Hc.
  - intros (-> & Hc & ->). right; left. exists c. split; [done|].
    by apply elem_of_targets.
Qed.

Lemma elem_of_broadcast_since_send net m ex w c ok :
  EvSend c m ok ∈ since w (broadcast net m ex w)
  ↔ (c ∈ clients w ∧ ex ≠ Some c) ∧ ok = net c.
Proof. rewrite elem_of_broadcast_since. naive_solver. Qed.

(** C6.  [broadcast] attempts one write to every connection that is in
    the registry when the pass starts, except the excluded one; a failed
    write does not stop the pass; the connections whose write failed are
    discarded after the last write of the pass; so when exactly one of N
    registered connections fails, the N - 1 others are delivered to and
    the failing one is gone from the registry when [broadcast] returns. *)
Theorem broadcast_tolerates_failure
        (net : conn → bool) (m : pyval) (exclude : option conn) (w : world) :
  let w' := broadcast net m exclude w in
  let attempted := targets exclude (elements (clients w)) in
  let dead := filter (λ c, net c = false) attempted in
  since w w' = [EvAcquire] ++ map (λ c, EvSend c m (net c)) attempted
                 ++ map EvDiscard dead ++ [EvRelease]
  ∧ NoDup attempted
  ∧ (∀ c, c ∈ attempted ↔ c ∈ clients w ∧ exclude ≠ Some c)
  ∧ (∀ c, c ∈ clients w' ↔ c ∈ clients w ∧ (exclude = Some c ∨ net c = true))
  ∧ (∀ bad, exclude = None → bad ∈ clients w → net bad = false →
       (∀ c, c ∈ clients w → c ≠ bad → net c = true) →
       (∀ c, EvSend c m true ∈ since w w' ↔ c ∈ clients w ∧ c ≠ bad)
       ∧ EvSend bad m false ∈ since w w'
       ∧ clients w' = clients w ∖ {[bad]}
       ∧ size (clients w') + 1 = size (clients w))%nat.
Proof.
  intros w' attempted dead.
  assert (Hcl : ∀ c, c ∈ clients w'
                    ↔ c ∈ clients w ∧ (exclude = Some c ∨ net c = true)).
  { intros c. unfold w'. rewrite broadcast_clients.
    rewrite elem_of_difference, elem_of_list_to_set, list_elem_of_filter.
    rewrite elem_of_targets.
    destruct (net c); destruct (decide (exclude = Some c)); naive_solver. }
  split; [apply broadcast_since|].
  split; [apply NoDup_filter, NoDup_elements|].
  split; [intros c; apply elem_of_targets|].
  split; [exact Hcl|].
  intros bad -> Hbad Hfail Hothers.
  assert (Heq : clients w' = clients w ∖ {[bad]}).
  { apply set_eq. intros c. rewrite Hcl, elem_of_difference.
    rewrite elem_of_singleton. split.
    - intros [Hc [?|Hn]]; [done|]. split; [done|]. congruence.
    - intros [Hc Hne]. split; [done|]. right. by apply Hothers. }
  split; [|split; [|split]].
  - intros c. unfold w'. rewrite elem_of_broadcast_since_send. split.
    + intros [[Hc _] Hn]. split; [done|]. congruence.
    + intros [Hc Hne]. split; [done|]. symmetry. by apply Hothers.
  - unfold w'. rewrite elem_of_broadcast_since_send. done.
  - exact Heq.
  - rewrite Heq. rewrite size_difference by set_solver.
    rewrite size_singleton.
    assert (size (clients w) ≠ 0)%nat; [|lia].
    intros Hz. apply size_empty_inv in Hz. set_solver.
Qed.

Lemma broadcast_tolerates_failure_witness :
  clients (broadcast (λ c, negb (Nat.eqb c 2)) PNone None
                     (world_of {[1%nat; 2%nat; 3%nat]}))
  = {[1%nat; 2%nat; 3%nat]} ∖ {[2%nat]}.
Proof.
  refine (proj1 (proj2 (proj2 (proj2 (proj2 (proj2 (proj2
            (broadcast_tolerates_failure (λ c, negb (Nat.eqb c 2)) PNone None
               (world_of {[1%nat; 2%nat; 3%nat]})))))
            2%nat eq_refl _ eq_refl _)))).
  - cbn. set_solver.
  - intros c _ Hc. by destruct (Nat.eqb_spec c 2).
Defined.

Lemma since_app w w1 w2 :
  trace w1 = trace w ++ since w w1 →
  trace w2 = trace w1 ++ since w1 w2 →
  since w w2 = since w w1 ++ since w1 w2.
Proof.
  intros H1 H2. unfold since at 1. rewrite H2, H1, <- app_assoc.
  by rewrite drop_app_length.
Qed.

Lemma since_refl w : since w w = [].
Proof. unfold since. apply drop_all. Qed.

Lemma inside_lock_sends l m net rest :
  sends_inside_lock true (map (λ c, EvSend c m (net c)) l ++ rest)
  = sends_inside_lock true rest.
Proof. induction l as [|c l IH]; [done|]. cbn. exact IH. Qed.

Lemma inside_lock_discards l rest :
  sends_inside_lock true (map EvDiscard l ++ rest)
  = sends_inside_lock true rest.
Proof. induction l as [|c l IH]; [done|]. cbn. exact IH. Qed.

(** ** Session handler: joining *)

Lemma join_since net c addr w :
  let w1 := {| clients := {[c]} ∪ clients w;
               trace := trace w ++ [EvAcquire; EvAdd c; EvRelease] |} in
  since w (join net c addr w)
  = [EvAcquire; EvAdd c; EvRelease]
      ++ since w1 (broadcast net (PDict (info (addr +:+ " joined"))) None w1).
Proof.
  intros w1. unfold join. fold w1.
  rewrite (since_app w w1).
  - unfold w1. by rewrite since_emit.
  - unfold w1. by rewrite since_emit.
  - apply broadcast_trace.
Qed.





(** ** Locking discipline *)

(** C9, as stated, fails: with one registered connection, [broadcast]
    writes to its socket between acquiring and releasing the lock. *)
Lemma sends_outside_lock_fails :
  ¬ (∀ (net : conn → bool) (m : pyval) (ex : option conn) (w : world),
       sends_outside_lock false (since w (broadcast net m ex w)) = true).
Proof.
  intros H.
  specialize (H (λ _, true) PNone None (world_of {[1%nat]})).
  vm_compute in H. discriminate.
Qed.

(** C9, amended.  [broadcast] holds the registry lock for its whole body:
    it takes the lock, writes to the connections of the live set (there
    is no copy), discards the dead ones and only then releases the lock,
    so every write of the fan-out is inside the critical section.  The
    reply to a [sync_request] is the write made without the lock. *)
Theorem broadcast_sends_under_lock
        (net : conn → bool) (m : pyval) (ex : option conn) (w : world) :
  sends_inside_lock false (since w (broadcast net m ex w)) = true
  ∧ (∃ body, since w (broadcast net m ex w) = [EvAcquire] ++ body ++ [EvRelease]
             ∧ (EvAcquire ∉ body) ∧ (EvRelease ∉ body)
             ∧ (∀ c, c ∈ clients w → ex ≠ Some c → EvSend c m (net c) ∈ body))
  ∧ (∀ ok c obj,
       sends_outside_lock false (since w (snd (send_json ok c obj w))) = true).
Proof.
  split; [|split].
  - rewrite broadcast_since. cbn.
    by rewrite inside_lock_sends, inside_lock_discards.
  - rewrite broadcast_since.
    eexists (_ ++ _). split; [by rewrite <- app_assoc|].
    split; [|split].
    + rewrite elem_of_app, !list_elem_of_fmap. naive_solver.
    + rewrite elem_of_app, !list_elem_of_fmap. naive_solver.
    + intros c Hc Hex. rewrite elem_of_app, list_elem_of_fmap. left.
      exists c. split; [done|]. by apply elem_of_targets.
  - intros ok c obj. unfold send_json, emit. cbn. by rewrite since_emit.
Qed.

(** ** Session handler: the read loop *)

Lemma py_eq_str_true v s : py_eq_str v s = true ↔ v = PStr s.
Proof.
  destruct v; cbn; try (split; [discriminate|congruence]).
  destruct (String.eqb_spec s0 s); split; congruence.
Qed.

Lemma handle_msg_trace net now c0 msg w :
  trace (snd (handle_msg net now c0 msg w))
  = trace w ++ since w (snd (handle_msg net now c0 msg w)).
Proof.
  unfold handle_msg.
  destruct msg as [| | | | | |d]; cbn [snd];
    try (rewrite since_refl; by rewrite app_nil_r).
  destruct (py_eq_str _ "chat"); cbn [snd]; [apply broadcast_trace|].
  destruct (py_eq_str _ "sync_request"); cbn [snd].
  - unfold send_json, emit. cbn. by rewrite since_emit.
  - rewrite since_refl. by rewrite app_nil_r.
Qed.

(** C1, as stated, fails: an inbound chat record without a [from] field
    is broadcast with [from] set to the default ["?"], so the field is not
    absent in the record that is sent. *)
Lemma chat_fields_preserved_fails :
  ¬ (∀ (net : conn → bool) (now : float) (c0 : conn) (d : pydict) (w : world)
       (c : conn) (obj : pyval) (ok : bool),
       py_eq_str (dict_get d "type" PNone) "chat" = true →
       EvSend c obj ok ∈ since w (snd (handle_msg net now c0 (PDict d) w)) →
       ∃ out, obj = PDict out
              ∧ dict_lookup "server_ts" out = Some (PFloat now)
              ∧ dict_lookup "from" out = dict_lookup "from" d
              ∧ dict_lookup "text" out = dict_lookup "text" d
              ∧ dict_lookup "client_ts" out = dict_lookup "client_ts" d).
Proof.
  intros H.
  destruct (H (λ _, true) 5%float 1%nat [("type", PStr "chat")]
              (world_of {[1%nat]}) 1%nat
              (PDict (chat_out [("type", PStr "chat")] 5%float)) true)
    as (out & Hout & _ & Hfrom & _).
  - reflexivity.
  - vm_compute. apply list_elem_of_In. cbn. tauto.
  - injection Hout as <-. discriminate Hfrom.
Qed.

(** C1, amended.  For an inbound chat record the handler broadcasts, to
    every registered connection (the sender included), a chat record whose
    [server_ts] is the server's receipt time and whose [from], [text] and
    [client_ts] are the inbound values when the inbound record has them;
    a missing [from] becomes ["?"], a missing [text] becomes the empty
    string and a missing [client_ts] becomes [None] (JSON [null]). *)
Theorem chat_stamped_with_defaults
        (net : conn → bool) (now : float) (c0 : conn) (d : pydict) (w : world) :
  py_eq_str (dict_get d "type" PNone) "chat" = true →
  let out := chat_out d now in
  handle_msg net now c0 (PDict d) w = (Ok tt, broadcast net (PDict out) None w)
  ∧ (∀ c ok, EvSend c (PDict out) ok
               ∈ since w (snd (handle_msg net now c0 (PDict d) w))
             ↔ c ∈ clients w ∧ ok = net c)
  ∧ map fst out = ["type"; "from"; "text"; "client_ts"; "server_ts"]
  ∧ dict_lookup "type" out = Some (PStr "chat")
  ∧ dict_lookup "server_ts" out = Some (PFloat now)
  ∧ dict_lookup "from" out
    = Some (default (PStr "?") (dict_lookup "from" d))
  ∧ dict_lookup "text" out
    = Some (default (PStr "") (dict_lookup "text" d))
  ∧ dict_lookup "client_ts" out
    = Some (default PNone (dict_lookup "client_ts" d)).
Proof.
  intros Hty out.
  assert (Hm : handle_msg net now c0 (PDict d) w
               = (Ok tt, broadcast net (PDict out) None w)).
  { unfold handle_msg. by rewrite Hty. }
  split; [exact Hm|]. split.
  { intros c ok. rewrite Hm. cbn [snd].
    rewrite elem_of_broadcast_since_send. naive_solver. }
  unfold out, chat_out, dict_get. cbn.
  repeat split; by destruct (dict_lookup _ d).
Qed.

Lemma chat_stamped_with_defaults_witness :
  dict_lookup "from"
    (chat_out [("type", PStr "chat"); ("text", PStr "hi")] 7%float)
  = Some (PStr "?").
Proof.
  pose proof (chat_stamped_with_defaults (λ _, true) 7%float 1%nat
                [("type", PStr "chat"); ("text", PStr "hi")]
                (world_of {[1%nat]}) eq_refl) as H.
  exact (proj1 (proj2 (proj2 (proj2 (proj2 (proj2 H)))))).
Defined.

(** C8.  For an inbound [sync_request] the handler writes one record, a
    [sync_reply] whose [server_time] is the current server time, to the
    requesting connection and to no other; the registry is not touched.
    More generally no step of the read loop writes a [sync_reply] to a
    connection other than the handler's own. *)
Theorem sync_request_answered_to_requester
        (net : conn → bool) (now : float) (c0 : conn) (d : pydict) (w : world) :
  py_eq_str (dict_get d "type" PNone) "sync_request" = true →
  let r := handle_msg net now c0 (PDict d) w in
  since w (snd r) = [EvSend c0 (PDict (sync_reply now)) (net c0)]
  ∧ dict_lookup "type" (sync_reply now) = Some (PStr "sync_reply")
  ∧ dict_lookup "server_time" (sync_reply now) = Some (PFloat now)
  ∧ clients (snd r) = clients w
  ∧ fst r = (if net c0 then Ok tt else Raise OSError)
  ∧ (∀ msg c obj ok,
       EvSend c (PDict obj) ok ∈ since w (snd (handle_msg net now c0 msg w)) →
       is_sync_reply obj = true → c = c0).
Proof.
  intros Hty r.
  assert (Hr : r = send_json (net c0) c0 (PDict (sync_reply now)) w).
  { unfold r, handle_msg.
    apply py_eq_str_true in Hty. rewrite Hty. cbn. done. }
  rewrite Hr. unfold send_json, emit. cbn [fst snd clients].
  rewrite since_emit. repeat split; try done.
  intros msg c obj ok. unfold handle_msg.
  destruct msg as [| | | | | |d']; cbn [snd];
    try (rewrite since_refl; by intros ?%elem_of_nil).
  destruct (py_eq_str (dict_get d' "type" PNone) "chat") eqn:Hchat; cbn [snd].
  { rewrite elem_of_broadcast_since. intros ([= ->] & _). discriminate. }
  destruct (py_eq_str (dict_get d' "type" PNone) "sync_request"); cbn [snd].
  - unfold send_json, emit. cbn [snd clients trace]. rewrite since_emit.
    intros Hin%list_elem_of_singleton. congruence.
  - rewrite since_refl. by intros ?%elem_of_nil.
Qed.

Lemma sync_request_answered_to_requester_witness :
  since (world_of {[1%nat; 2%nat]})
        (snd (handle_msg (λ _, true) 9%float 2%nat
                         (PDict [("type", PStr "sync_request")])
                         (world_of {[1%nat; 2%nat]})))
  = [EvSend 2%nat (PDict (sync_reply 9%float)) true].
Proof.
  exact (proj1 (sync_request_answered_to_requester
                  (λ _, true) 9%float 2%nat [("type", PStr "sync_request")]
                  (world_of {[1%nat; 2%nat]}) eq_refl)).
Defined.

Lemma all_space_lstrip s : all_space s = true → lstrip s = EmptyString.
Proof.
  induction s as [|c s IH]; [done|]. cbn.
  intros [Hc Hs]%andb_prop. rewrite Hc. auto.
Qed.

Lemma all_space_strip s : all_space s = true → strip s = EmptyString.
Proof. intros H. unfold strip. by rewrite all_space_lstrip. Qed.

(** C10.  A record that is empty or made of whitespace only is skipped by
    the read loop: nothing is written, the registry and the trace are as
    before, and the loop goes on with the next record. *)
Theorem blank_record_skipped
        (loads : string → result pyval) (net : conn → bool) (now : float)
        (c0 : conn) (line : string) (w : world) :
  all_space line = true →
  handle_line loads net now c0 line w = (Ok tt, w)
  ∧ since w (snd (handle_line loads net now c0 line w)) = []
  ∧ clients (snd (handle_line loads net now c0 line w)) = clients w
  ∧ (∀ ins, read_loop loads c0 (mkInput line now net :: ins) w
            = read_loop loads c0 ins w).
Proof.
  intros Hsp.
  assert (H : handle_line loads net now c0 line w = (Ok tt, w)).
  { unfold handle_line. by rewrite all_space_strip. }
  rewrite H. cbn [snd]. rewrite since_refl. repeat split.
  intros ins. cbn [read_loop in_line in_now in_net]. by rewrite H.
Qed.

Lemma blank_record_skipped_witness :
  handle_line (λ _, Ok PNone) (λ _, true) 0%float 1%nat
              (String " " (String "010" EmptyString)) (world_of {[1%nat]})
  = (Ok tt, world_of {[1%nat]}).
Proof.
  exact (proj1 (blank_record_skipped (λ _, Ok PNone) (λ _, true) 0%float
                  1%nat (String " " (String "010" EmptyString))
                  (world_of {[1%nat]}) eq_refl)).
Defined.

(** ** Clock model *)

Lemma add_floats x y : PyNum.add (PFloat x) (PFloat y) = Ok (PFloat (x + y)).
Proof. reflexivity. Qed.

Lemma sub_floats x y : PyNum.sub (PFloat x) (PFloat y) = Ok (PFloat (x - y)).
Proof. reflexivity. Qed.

Lemma add_coerce v s y :
  PyNum.coerce v = Ok s → PyNum.add v (PFloat y) = Ok (PFloat (s + y)).
Proof.
  intros H. unfold PyNum.add, PyNum.arith.
  destruct v; try discriminate; cbn in H |- *;
    rewrite ?H; cbn; congruence.
Qed.

Lemma apply_cristian_eq k t_send t_recv server_time s :
  PyNum.coerce server_time = Ok s →
  apply_cristian k (PFloat t_send) server_time (PFloat t_recv)
  = Ok {| start_real := start_real k; start_local := start_local k;
          offset := PFloat (s + (t_recv - t_send) / 2 - t_recv) |}.
Proof.
  intros Hs. unfold apply_cristian. rewrite sub_floats. cbn.
  rewrite (add_coerce _ _ _ Hs). cbn. reflexivity.
Qed.

(** On three floats the arithmetic cannot raise. *)
Lemma apply_cristian_floats k t_send server_time t_recv :
  apply_cristian k (PFloat t_send) (PFloat server_time) (PFloat t_recv)
  = Ok {| start_real := start_real k; start_local := start_local k;
          offset := PFloat (server_time + (t_recv - t_send) / 2 - t_recv) |}.
Proof. by apply apply_cristian_eq. Qed.

(** C4, as stated, fails: an integer [server_time] of 2^1024 passes the
    numeric test but cannot be converted to a binary64, so the
    arithmetic raises [OverflowError] and no offset is set. *)
Lemma apply_cristian_total_fails :
  ¬ (∀ (c : Clock) (t_send server_time t_recv : pyval),
       PyNum.is_int_or_float t_send = true →
       PyNum.is_int_or_float server_time = true →
       PyNum.is_int_or_float t_recv = true →
       ∃ c', apply_cristian c t_send server_time t_recv = Ok c').
Proof.
  intros H.
  destruct (H (Clock_init 0%float) (PFloat 100%float) (PInt (2 ^ 1024))
              (PFloat 102%float) eq_refl eq_refl eq_refl) as [c' Hc'].
  vm_compute in Hc'. discriminate.
Qed.

(** C4, amended.  For binary64 local times [t_send] and [t_recv] and a
    [server_time] that is a float, or an integer whose conversion to
    binary64 does not overflow, [apply_cristian] replaces the offset by
    [server_time + (t_recv - t_send)/2 - t_recv] (binary64 arithmetic)
    whatever the offset was before, and afterwards [now_synced()] is
    [now_local()] plus that offset; for 100.0, 205.0, 102.0 the offset
    is 104.0 and [now_synced()] at local time 102.0 is 206.0. *)
Theorem apply_cristian_sets_offset
        (c : Clock) (t_send t_recv : float) (server_time : pyval) (s : float) :
  PyNum.coerce server_time = Ok s →
  let est := (s + (t_recv - t_send) / 2 - t_recv)%float in
  apply_cristian c (PFloat t_send) server_time (PFloat t_recv)
  = Ok {| start_real := start_real c; start_local := start_local c;
          offset := PFloat est |}
  ∧ (∀ c2, ∃ c2', apply_cristian c2 (PFloat t_send) server_time (PFloat t_recv)
                  = Ok c2' ∧ offset c2' = PFloat est)
  ∧ (∀ c' t, apply_cristian c (PFloat t_send) server_time (PFloat t_recv)
             = Ok c' →
             now_local c' t = now_local c t
             ∧ now_synced c' t = Ok (PFloat (now_local c' t + est)))
  ∧ (∀ c' t, apply_cristian c (PFloat 100) (PFloat 205) (PFloat 102) = Ok c' →
             offset c' = PFloat 104
             ∧ (now_local c' t = 102%float →
                now_synced c' t = Ok (PFloat 206))).
Proof.
  intros Hs est.
  assert (H : ∀ k, apply_cristian k (PFloat t_send) server_time (PFloat t_recv)
                   = Ok {| start_real := start_real k;
                           start_local := start_local k;
                           offset := PFloat est |})
    by (intros k; by apply apply_cristian_eq).
  split; [apply H|]. split; [|split].
  - intros c2. eexists. split; [apply H|]. reflexivity.
  - intros c' t. rewrite H. intros [= <-]. split; [reflexivity|].
    unfold now_synced. cbn [offset]. apply add_floats.
  - intros c' t H0. vm_compute in H0. injection H0 as <-.
    split; [reflexivity|]. intros Hl.
    unfold now_synced. cbn [offset]. rewrite add_floats, Hl. reflexivity.
Qed.

Lemma apply_cristian_sets_offset_witness :
  apply_cristian (Clock_init 0%float) (PFloat 100) (PInt 205) (PFloat 102)
  = Ok {| start_real := 0%float; start_local := 0%float;
          offset := PFloat 104 |}.
Proof.
  exact (proj1 (apply_cristian_sets_offset (Clock_init 0%float) 100%float
                  102%float (PInt 205) 205%float eq_refl)).
Defined.

(** ** Sync coordinator *)

(** The failing input of C2: a chat record, the reply, another chat
    record.  The first chat record is put back behind the second one. *)
Lemma wait_reply_reorders :
  wait_reply [quiet; quiet]
             [PDict chat_a; PDict (sync_reply 5%float); PDict chat_b]
  = (Ok (Some (sync_reply 5%float)), [PDict chat_b; PDict chat_a]).
Proof. reflexivity. Qed.

(** A queued value that is not a JSON object makes [msg.get] raise: the
    value is gone and the wait is over. *)
Lemma wait_reply_drops_non_dict :
  wait_reply [quiet; quiet] [PInt 5; PDict chat_a]
  = (Raise AttributeError, [PDict chat_a]).
Proof. reflexivity. Qed.

(** With no reply at all, one iteration already rotates the queue. *)
Lemma wait_reply_rotates :
  wait_reply [quiet] [PDict chat_a; PDict chat_b]
  = (Ok None, [PDict chat_b; PDict chat_a]).
Proof. reflexivity. Qed.

(** What does hold: while nothing arrives, no record is lost; the queue
    left behind is a permutation of the original one, less the reply. *)
Lemma wait_reply_quiet_perm n q r q' :
  wait_reply (replicate n quiet) q = (Ok r, q') →
  match r with
  | None => q' ≡ₚ q
  | Some d => PDict d :: q' ≡ₚ q
  end.
Proof.
  revert q. induction n as [|n IH]; intros q; cbn [replicate wait_reply].
  - by intros [= <- <-].
  - cbn [quiet before_get before_put]. rewrite app_nil_r.
    destruct q as [|msg q0]; [apply IH|].
    destruct msg as [| | | | | |d]; try discriminate.
    destruct (is_sync_reply d).
    + by intros [= <- <-].
    + intros H%IH. cbn [app] in H.
      destruct r; rewrite H; by rewrite Permutation_app_comm.
Qed.

(** If no record on the queue or arriving during the wait is a
    [sync_reply], the wait loop ends without a reply. *)
Lemma wait_reply_none sched q :
  Forall (λ m, ∀ d, m = PDict d → is_sync_reply d = false) q →
  Forall (λ t, Forall (λ m, ∀ d, m = PDict d → is_sync_reply d = false)
                      (before_get t ++ before_put t)) sched →
  ∀ d, fst (wait_reply sched q) ≠ Ok (Some d).
Proof.
  intros Hq Hs. revert q Hq.
  induction Hs as [|t sched Ht Hs IH]; intros q Hq d; [cbn; congruence|].
  cbn [wait_reply]. apply Forall_app in Ht as [Hg Hp].
  assert (Hall : Forall (λ m, ∀ d, m = PDict d → is_sync_reply d = false)
                        (q ++ before_get t)) by (by apply Forall_app).
  destruct (q ++ before_get t) as [|msg q0]; [by apply IH|].
  apply Forall_cons in Hall as [Hm Hq0].
  destruct msg as [| | | | | |dm]; try (cbn; congruence).
  rewrite (Hm dm eq_refl). apply IH.
  rewrite !Forall_app. repeat split; try done.
  by apply Forall_singleton.
Qed.

Lemma sync_try_keeps_clock r a :
  no_reply r a ∨ reply_not_numeric r a →
  ∃ res q, sync_try r a = (res, clock a, q)
           ∧ failure_line (report res) = true.
Proof.
  intros Hcase. unfold sync_try.
  destruct (send_ok r); cbn [negb]; [|by eexists _, _].
  destruct (wait_reply (sched r) (ui_queue a)) as [[[reply|]|e] q] eqn:Hw;
    [|by eexists _, _|by eexists _, _].
  destruct Hcase as [Hno|(d & Hd & Hnum)].
  - exfalso. apply (Hno reply). by rewrite Hw.
  - rewrite Hw in Hd. cbn in Hd. injection Hd as ->.
    rewrite Hnum. by eexists _, _.
Qed.

Lemma unusable_not_numeric r a : reply_unusable r a → reply_not_numeric r a.
Proof.
  intros (d & Hd & Hn & Hb). exists d. split; [done|].
  by destruct (dict_get d "server_time" PNone).
Qed.

Lemma coerce_bool b : PyNum.coerce (PBool b) = Ok (if b then 1 else 0)%float.
Proof. by destruct b. Qed.

(** C5, as stated, fails: a reply whose [server_time] is the JSON value
    [true] is not a number, yet it passes
    [isinstance(server_time, (int, float))] and the round replaces the
    offset (here 0.0 becomes -100.0). *)
Lemma failed_round_keeps_offset_fails :
  ¬ (∀ (r : round) (a : ClientApp),
       running a = true →
       no_reply r a
       ∨ (∃ d, fst (wait_reply (sched r) (ui_queue a)) = Ok (Some d)
               ∧ is_number (dict_get d "server_time" PNone) = false) →
       offset (clock (sync_with_server r a)) = offset (clock a)).
Proof.
  intros H.
  specialize (H {| wall_send := 100%float; send_ok := true;
                   sched := [quiet]; wall_recv := 102%float |}
                {| running := true; clock := Clock_init 0%float;
                   ui_queue := [PDict [("type", PStr "sync_reply");
                                       ("server_time", PBool true)]];
                   chat := []; timers := [] |}
                eq_refl).
  assert (Hoff : offset (clock
                   (sync_with_server
                      {| wall_send := 100%float; send_ok := true;
                         sched := [quiet]; wall_recv := 102%float |}
                      {| running := true; clock := Clock_init 0%float;
                         ui_queue := [PDict [("type", PStr "sync_reply");
                                             ("server_time", PBool true)]];
                         chat := []; timers := [] |}))
                 = PFloat (-100)) by (vm_compute; reflexivity).
  rewrite Hoff in H. clear Hoff.
  assert (Heq : PFloat (-100) = PFloat 0).
  { apply H. right. eexists. split; [reflexivity|reflexivity]. }
  pose proof (f_equal (λ v, match v with
                            | PFloat f => (f =? 0)%float
                            | _ => true
                            end) Heq) as Hne.
  vm_compute in Hne. discriminate.
Qed.

(** C5, amended.  In a round in which the wait ends without a
    [sync_reply], or in which the reply's [server_time] is missing or is
    neither a number nor a boolean, the clock, and so its offset, is what
    it was before the round; a line that reports the failure is appended
    to the chat (["[sync] no reply"] after a silent wait,
    ["[sync] invalid server time"] for such a reply); the client keeps
    running and the next round is scheduled.  A boolean [server_time]
    passes [isinstance(server_time, (int, float))] and is used as the
    integer 1 or 0: that round replaces the offset. *)
Theorem failed_round_keeps_offset (r : round) (a : ClientApp) :
  running a = true →
  no_reply r a ∨ reply_unusable r a →
  let a' := sync_with_server r a in
  offset (clock a') = offset (clock a)
  ∧ clock a' = clock a
  ∧ (∃ l, chat a' = chat a ++ [l] ∧ failure_line l = true
          ∧ (send_ok r = true →
             fst (wait_reply (sched r) (ui_queue a)) = Ok None →
             l = Line "[sync] no reply")
          ∧ (send_ok r = true → reply_unusable r a →
             l = Line "[sync] invalid server time"))
  ∧ running a' = true
  ∧ timers a' = timers a ++ [(5000, TaskSync)]
  ∧ (∀ r2 d q b,
       send_ok r2 = true →
       wait_reply (sched r2) (ui_queue a) = (Ok (Some d), q) →
       dict_get d "server_time" PNone = PBool b →
       let t_send := now_local (clock a) (wall_send r2) in
       let t_recv := now_local (clock a) (wall_recv r2) in
       offset (clock (sync_with_server r2 a))
       = PFloat ((if b then 1 else 0) + (t_recv - t_send) / 2 - t_recv)).
Proof.
  intros Hrun Hcase a'.
  assert (Hcase' : no_reply r a ∨ reply_not_numeric r a).
  { destruct Hcase as [?|?%unusable_not_numeric]; [by left|by right]. }
  assert (Hmain : offset (clock a') = offset (clock a)
                  ∧ clock a' = clock a
                  ∧ (∃ l, chat a' = chat a ++ [l] ∧ failure_line l = true
                          ∧ (send_ok r = true →
                             fst (wait_reply (sched r) (ui_queue a)) = Ok None →
                             l = Line "[sync] no reply")
                          ∧ (send_ok r = true → reply_unusable r a →
                             l = Line "[sync] invalid server time"))
                  ∧ running a' = true
                  ∧ timers a' = timers a ++ [(5000, TaskSync)]).
  { unfold a', sync_with_server. rewrite Hrun. cbn [negb].
    destruct (sync_try_keeps_clock r a Hcase') as (res & q & Htry & Hres).
    pose proof Htry as Htry'. rewrite Htry. cbn.
    repeat split; try done.
    exists (report res). repeat split; try done.
    - intros Hsend Hw. unfold sync_try in Htry'. rewrite Hsend in Htry'.
      cbn [negb] in Htry'.
      destruct (wait_reply (sched r) (ui_queue a)) as [w q0].
      cbn [fst] in Hw. subst w. by injection Htry' as <- _.
    - intros Hsend (d & Hd & Hn & Hb). unfold sync_try in Htry'.
      rewrite Hsend in Htry'. cbn [negb] in Htry'.
      destruct (wait_reply (sched r) (ui_queue a)) as [w q0].
      cbn [fst] in Hd. subst w.
      assert (Hnum : PyNum.is_int_or_float (dict_get d "server_time" PNone)
                     = false)
        by (by destruct (dict_get d "server_time" PNone)).
      rewrite Hnum in Htry'. by injection Htry' as <- _. }
  destruct Hmain as (H1 & H2 & H3 & H4 & H5).
  repeat (split; [done|]).
  intros r2 d q b Hsend Hw Hb t_send t_recv.
  unfold sync_with_server, sync_try. rewrite Hrun, Hsend, Hw. cbn [negb].
  rewrite Hb. cbn [PyNum.is_int_or_float].
  rewrite (apply_cristian_eq _ _ _ _ _ (coerce_bool b)). reflexivity.
Qed.

(** The two failures of the claim, one by one: a silent wait reports
    ["[sync] no reply"], a reply without a numeric [server_time] reports
    ["[sync] invalid server time"]. *)
Lemma silent_round_reports_no_reply r a :
  running a = true → send_ok r = true →
  fst (wait_reply (sched r) (ui_queue a)) = Ok None →
  chat (sync_with_server r a) = chat a ++ [Line "[sync] no reply"].
Proof.
  intros Hrun Hsend Hw. unfold sync_with_server, sync_try.
  rewrite Hrun, Hsend. cbn [negb].
  destruct (wait_reply (sched r) (ui_queue a)) as [res q].
  cbn in Hw. by subst res.
Qed.

Lemma invalid_reply_reports_invalid r a d :
  running a = true → send_ok r = true →
  fst (wait_reply (sched r) (ui_queue a)) = Ok (Some d) →
  PyNum.is_int_or_float (dict_get d "server_time" PNone) = false →
  chat (sync_with_server r a) = chat a ++ [Line "[sync] invalid server time"].
Proof.
  intros Hrun Hsend Hw Hnum. unfold sync_with_server, sync_try.
  rewrite Hrun, Hsend. cbn [negb].
  destruct (wait_reply (sched r) (ui_queue a)) as [res q].
  cbn in Hw. subst res. by rewrite Hnum.
Qed.

Lemma failed_round_keeps_offset_witness :
  clock (sync_with_server round0 app0) = Clock_init 0%float.
Proof.
  refine (proj1 (proj2 (failed_round_keeps_offset round0 app0 eq_refl _))).
  left. unfold no_reply. intros d.
  apply wait_reply_none; cbn [sched ui_queue round0 app0].
  - apply Forall_singleton. by intros d' [= <-].
  - repeat constructor; by intros ? ?.
Defined.

(** A numeric reply, for comparison: the offset is replaced. *)
Example numeric_reply_adjusts :
  let a' := sync_with_server
              {| wall_send := 100%float; send_ok := true;
                 sched := [quiet]; wall_recv := 102%float |}
              {| running := true; clock := Clock_init 0%float;
                 ui_queue := [PDict (sync_reply 205%float)];
                 chat := []; timers := [] |} in
  offset (clock a') = PFloat 104 ∧ chat a' = [Line "[sync] clock adjusted"].
Proof. split; reflexivity. Qed.

(** A reply whose [server_time] is a string: the round is discarded. *)
Example string_reply_rejected :
  let a' := sync_with_server
              {| wall_send := 100%float; send_ok := true;
                 sched := [quiet]; wall_recv := 102%float |}
              {| running := true; clock := Clock_init 0%float;
                 ui_queue := [PDict [("type", PStr "sync_reply");
                                     ("server_time", PStr "noon")]];
                 chat := []; timers := [] |} in
  clock a' = Clock_init 0%float
  ∧ chat a' = [Line "[sync] invalid server time"]
  ∧ timers a' = [(5000, TaskSync)].
Proof. repeat split; reflexivity. Qed.

(** [isinstance(True, (int, float))] holds in Python: a boolean
    [server_time] counts as numeric and is used as the integer 1 or 0. *)
Example boolean_reply_adjusts :
  let a' := sync_with_server
              {| wall_send := 100%float; send_ok := true;
                 sched := [quiet]; wall_recv := 102%float |}
              {| running := true; clock := Clock_init 0%float;
                 ui_queue := [PDict [("type", PStr "sync_reply");
                                     ("server_time", PBool true)]];
                 chat := []; timers := [] |} in
  offset (clock a') = PFloat (-100) ∧ chat a' = [Line "[sync] clock adjusted"].
Proof. split; vm_compute; reflexivity. Qed.

(** ** Framing codec *)

Lemma sapp_assoc (a b c : string) : (a +:+ b) +:+ c = a +:+ (b +:+ c).
Proof.
  induction a as [|x a IH]; [done|].
  change (String x ((a +:+ b) +:+ c) = String x (a +:+ (b +:+ c))).
  by f_equal.
Qed.

Lemma sapp_nil_r (a : string) : a +:+ EmptyString = a.
Proof.
  induction a as [|x a IH]; [done|].
  change (String x (a +:+ EmptyString) = String x a). by f_equal.
Qed.

Lemma sapp_length (a b : string) :
  String.length (a +:+ b) = (String.length a + String.length b)%nat.
Proof.
  induction a as [|x a IH]; [done|].
  change (S (String.length (a +:+ b))
          = S (String.length a + String.length b)). by f_equal.
Qed.

(** *** String literals *)

Lemma scan_escape_char c t :
  scan_string (escape_char c +:+ t) = cons_scanned c (scan_string t).
Proof. destruct c as [[] [] [] [] [] [] [] []]; reflexivity. Qed.

Lemma scan_string_escape s rest :
  scan_string (escape s +:+ String dquote rest) = Some (s, rest).
Proof.
  induction s as [|c s IH]; [reflexivity|].
  cbn [escape]. rewrite sapp_assoc, scan_escape_char, IH. reflexivity.
Qed.

Lemma quote_app s rest :
  quote s +:+ rest = String dquote (escape s +:+ String dquote rest).
Proof.
  change (quote s +:+ rest)
    with (String dquote ((escape s +:+ String dquote EmptyString) +:+ rest)).
  by rewrite sapp_assoc.
Qed.

(** *** Integers *)

Lemma digit_chars_span d rest :
  match rest with
  | String c _ => is_digit c = false
  | EmptyString => True
  end →
  span_digits (NilEmpty.string_of_uint d +:+ rest)
  = (NilEmpty.string_of_uint d, rest).
Proof.
  intros Hrest. induction d; cbn [NilEmpty.string_of_uint String.append];
    try (cbn [span_digits]; change (is_digit _) with true; cbv iota;
         rewrite IHd; reflexivity).
  destruct rest as [|c r]; [reflexivity|].
  change (is_digit c = false) in Hrest.
  cbn [span_digits]. by rewrite Hrest.
Qed.

Lemma to_uint_unorm p : Decimal.unorm (Pos.to_uint p) = Pos.to_uint p.
Proof.
  rewrite <- DecimalPos.Unsigned.to_of.
  by rewrite DecimalPos.Unsigned.of_to.
Qed.

Lemma to_uint_nonzero_head p : nonzero_head (Pos.to_uint p).
Proof.
  pose proof (to_uint_unorm p) as Hn.
  pose proof (DecimalPos.Unsigned.to_uint_nonnil p) as Hnil.
  pose proof (DecimalPos.Unsigned.to_uint_nonzero p) as Hz.
  destruct (Pos.to_uint p) as [|d| | | | | | | | |]; try done.
  rewrite DecimalFacts.unorm_D0 in Hn. unfold Decimal.unorm in Hn.
  destruct (Decimal.nzhead d) eqn:Hh; try discriminate.
  - by injection Hn as <-.
  - by apply DecimalFacts.nzhead_nonzero in Hh.
Qed.

Lemma delim_not_digit rest :
  delim_start rest = true →
  match rest with
  | String c _ => is_digit c = false
  | EmptyString => True
  end.
Proof.
  destruct rest as [|c r]; [done|]. unfold delim_start.
  destruct (is_digit c); [discriminate|done].
Qed.

Lemma scan_frac_delim rest :
  delim_start rest = true → scan_frac rest = (EmptyString, rest).
Proof.
  destruct rest as [|c r]; [done|]. unfold delim_start, scan_frac.
  destruct (Ascii.eqb c "."); [|done].
  rewrite orb_true_r. discriminate.
Qed.

Lemma scan_exp_delim rest :
  delim_start rest = true → scan_exp rest = (EmptyString, rest).
Proof.
  destruct rest as [|c r]; [done|]. unfold delim_start, scan_exp.
  destruct (Ascii.eqb c "e"), (Ascii.eqb c "E"); cbn [orb]; try done;
    rewrite ?orb_true_r; discriminate.
Qed.

(** The integer part of a number token, followed by anything that does
    not start with a digit. *)
Lemma scan_number_unsigned d rest :
  nonzero_head d →
  match rest with
  | String c _ => is_digit c = false
  | EmptyString => True
  end →
  scan_number (NilEmpty.string_of_uint d +:+ rest)
  = (let '(frac, r1) := scan_frac rest in
     let '(exp, r2) := scan_exp r1 in
     Some (NilEmpty.string_of_uint d +:+ frac +:+ exp,
           negb (String.eqb frac EmptyString && String.eqb exp EmptyString),
           r2)).
Proof.
  intros Hd Hrest. pose proof (digit_chars_span d rest Hrest) as Hspan.
  destruct d; try done;
    cbn [NilEmpty.string_of_uint String.append] in *;
    unfold scan_number; cbn -[span_digits scan_frac scan_exp];
    rewrite Hspan; destruct (scan_frac rest) as [frac r1];
    destruct (scan_exp r1) as [exp r2]; reflexivity.
Qed.

Lemma scan_number_minus c s' :
  is_digit c = true →
  scan_number (String "-" (String c s'))
  = match scan_number (String c s') with
    | Some (tok, fl, r) => Some (String "-" tok, fl, r)
    | None => None
    end.
Proof.
  intros Hc. unfold scan_number.
  destruct (Ascii.eqb_spec c "-") as [->|_]; [discriminate|].
  cbn -[span_digits scan_frac scan_exp is_digit]. rewrite Hc.
  destruct (if Ascii.eqb c "0" then _ else _) as [ip r].
  destruct (scan_frac r) as [frac r1]. by destruct (scan_exp r1).
Qed.

Lemma scan_uint_delim d rest :
  nonzero_head d → delim_start rest = true →
  scan_number (NilEmpty.string_of_uint d +:+ rest)
  = Some (NilEmpty.string_of_uint d, false, rest).
Proof.
  intros Hd Hrest.
  rewrite (scan_number_unsigned d rest Hd (delim_not_digit rest Hrest)).
  rewrite scan_frac_delim, scan_exp_delim by done.
  by rewrite !sapp_nil_r.
Qed.

Lemma uint_head d :
  nonzero_head d →
  ∃ c s', NilEmpty.string_of_uint d = String c s' ∧ is_digit c = true.
Proof.
  destruct d; cbn; intros H; try (destruct H);
    eexists _, _; split; reflexivity.
Qed.

Lemma scan_int_repr z rest :
  delim_start rest = true →
  scan_number (int_repr z +:+ rest) = Some (int_repr z, false, rest).
Proof.
  intros Hrest. unfold int_repr. destruct z as [|p|p]; cbn [Z.to_int].
  - change (scan_number (String "0" rest) = Some ("0", false, rest)).
    unfold scan_number. cbn -[scan_frac scan_exp].
    by rewrite scan_frac_delim, scan_exp_delim.
  - apply scan_uint_delim; [apply to_uint_nonzero_head|done].
  - cbn [NilEmpty.string_of_int String.append].
    destruct (uint_head _ (to_uint_nonzero_head p)) as (c & s' & Hs & Hc).
    pose proof (scan_uint_delim _ rest (to_uint_nonzero_head p) Hrest) as H.
    rewrite Hs in *. cbn [String.append] in *.
    by rewrite scan_number_minus, H.
Qed.

Lemma int_repr_head z :
  ∃ c s', int_repr z = String c s' ∧ (is_digit c || Ascii.eqb c "-") = true.
Proof.
  unfold int_repr. destruct z as [|p|p]; cbn [Z.to_int NilEmpty.string_of_int].
  - by eexists _, _.
  - destruct (uint_head _ (to_uint_nonzero_head p)) as (c & s' & -> & Hc).
    eexists _, _. split; [done|]. by rewrite Hc.
  - by eexists _, _.
Qed.

Lemma int_of_str_repr z : int_of_str (int_repr z) = z.
Proof.
  unfold int_of_str, int_repr. rewrite NilEmpty.isi.
  apply DecimalZ.of_to.
Qed.

Lemma token_digits_int_repr z : token_digits (int_repr z) = int_digits z.
Proof.
  unfold int_digits, int_repr. destruct z as [|p|p].
  - reflexivity.
  - change (token_digits (NilEmpty.string_of_uint (Pos.to_uint p))
            = String.length (NilEmpty.string_of_uint (Pos.to_uint p))).
    destruct (uint_head _ (to_uint_nonzero_head p)) as (c & s' & Hs & Hc).
    rewrite Hs. cbn [token_digits].
    destruct (Ascii.eqb_spec c "-") as [->|_]; [|done].
    vm_compute in Hc. discriminate.
  - change (token_digits (String "-" (NilEmpty.string_of_uint (Pos.to_uint p)))
            = String.length (NilEmpty.string_of_uint (Pos.to_uint p))).
    reflexivity.
Qed.

Lemma scan_number_head s tok fl r :
  scan_number s = Some (tok, fl, r) →
  ∃ c s', s = String c s' ∧ (is_digit c || Ascii.eqb c "-") = true.
Proof.
  destruct s as [|c s']; [discriminate|]. intros H. exists c, s'.
  split; [done|]. unfold scan_number in H.
  destruct (Ascii.eqb c "-"); [by rewrite orb_true_r|].
  destruct (is_digit c); [done|discriminate].
Qed.

(** *** Floats spelt by name *)

Lemma SFcompare_refl x : x ≠ S754_nan → SFcompare x x = Some Eq.
Proof.
  destruct x as [[]|[]| |[] m e]; try done; intros _; cbn;
    rewrite Z.compare_refl, Pos.compare_cont_refl; done.
Qed.

Lemma float_nan_test f : (f =? f)%float = false → f = nan.
Proof.
  rewrite FloatAxioms.eqb_spec. unfold SFeqb. intros H.
  rewrite <- (SF2Prim_Prim2SF f).
  destruct (Prim2SF f) as [sg|sg| |sg m e]; [| |reflexivity|];
    by rewrite SFcompare_refl in H.
Qed.

Lemma float_inf_test f : (f =? infinity)%float = true → f = infinity.
Proof.
  rewrite FloatAxioms.eqb_spec. unfold SFeqb. intros H.
  rewrite <- (SF2Prim_Prim2SF f).
  change (Prim2SF infinity) with (S754_infinity false) in H.
  by destruct (Prim2SF f) as [[]|[]| |[] m e].
Qed.

Lemma float_neg_inf_test f :
  (f =? neg_infinity)%float = true → f = neg_infinity.
Proof.
  rewrite FloatAxioms.eqb_spec. unfold SFeqb. intros H.
  rewrite <- (SF2Prim_Prim2SF f).
  change (Prim2SF neg_infinity) with (S754_infinity true) in H.
  by destruct (Prim2SF f) as [[]|[]| |[] m e].
Qed.

(** *** Dicts, whitespace and line terminators *)

Lemma dict_set_fresh k v (acc : pydict) :
  k ∉ map fst acc → dict_set k v acc = acc ++ [(k, v)].
Proof.
  induction acc as [|[k' v'] acc IH]; [done|]. cbn.
  intros Hk. apply not_elem_of_cons in Hk as [Hne Hk].
  destruct (String.eqb_spec k k') as [->|_]; [done|].
  by rewrite IH.
Qed.

Lemma number_head_not_ws c :
  (is_digit c || Ascii.eqb c "-") = true → is_json_ws c = false.
Proof. destruct c as [[] [] [] [] [] [] [] []]; try discriminate; done. Qed.

Lemma digit_not_newline c : is_digit c = true → Ascii.eqb c newline = false.
Proof. destruct c as [[] [] [] [] [] [] [] []]; try discriminate; done. Qed.

Lemma no_newline_app a b :
  no_newline (a +:+ b) = no_newline a && no_newline b.
Proof.
  induction a as [|c a IH]; [done|]. cbn [String.append no_newline].
  by rewrite IH, andb_assoc.
Qed.

Lemma no_newline_escape_char c : no_newline (escape_char c) = true.
Proof. destruct c as [[] [] [] [] [] [] [] []]; reflexivity. Qed.

Lemma no_newline_escape s : no_newline (escape s) = true.
Proof.
  induction s as [|c s IH]; [done|]. cbn [escape].
  by rewrite no_newline_app, no_newline_escape_char, IH.
Qed.

Lemma no_newline_quote s : no_newline (quote s) = true.
Proof.
  unfold quote. cbn [no_newline]. rewrite no_newline_app, no_newline_escape.
  reflexivity.
Qed.

Lemma no_newline_cons c s :
  no_newline (String c s) = negb (Ascii.eqb c newline) && no_newline s.
Proof. reflexivity. Qed.

Lemma span_digits_no_newline s d r :
  span_digits s = (d, r) → no_newline d = true.
Proof.
  revert d r. induction s as [|c s IH]; intros d r; cbn [span_digits].
  - by intros [= <- <-].
  - destruct (is_digit c) eqn:Hc; [|by intros [= <- <-]].
    destruct (span_digits s) as [d' r']. intros [= <- <-].
    cbn [no_newline]. by rewrite (digit_not_newline c Hc), (IH d' r').
Qed.

Lemma scan_frac_no_newline s frac r :
  scan_frac s = (frac, r) → no_newline frac = true.
Proof.
  unfold scan_frac. destruct s as [|c s']; [by intros [= <- <-]|].
  destruct (Ascii.eqb_spec c ".") as [->|_]; [|by intros [= <- <-]].
  destruct (span_digits s') as [d r'] eqn:Hd.
  destruct d as [|c' d']; intros [= <- <-]; [done|].
  apply span_digits_no_newline in Hd. by rewrite no_newline_cons, Hd.
Qed.

Lemma scan_exp_no_newline s e r :
  scan_exp s = (e, r) → no_newline e = true.
Proof.
  unfold scan_exp. destruct s as [|c s']; [by intros [= <- <-]|].
  destruct (Ascii.eqb c "e" || Ascii.eqb c "E") eqn:Hc;
    [|by intros [= <- <-]].
  assert (Hnl : Ascii.eqb c newline = false).
  { destruct (Ascii.eqb_spec c "e") as [->|_]; [done|].
    by destruct (Ascii.eqb_spec c "E") as [->|_]. }
  destruct s' as [|c2 r2].
  - cbn. by intros [= <- <-].
  - destruct (Ascii.eqb c2 "+" || Ascii.eqb c2 "-") eqn:Hc2.
    + destruct (span_digits r2) as [d r'] eqn:Hd.
      destruct d as [|c' d']; intros [= <- <-]; [done|].
      apply span_digits_no_newline in Hd.
      cbn [String.append].
      rewrite (no_newline_cons c), (no_newline_cons c2), Hnl, Hd, andb_true_r.
      destruct (Ascii.eqb_spec c2 "+") as [->|_]; [done|].
      by destruct (Ascii.eqb_spec c2 "-") as [->|_].
    + destruct (span_digits (String c2 r2)) as [d r'] eqn:Hd.
      destruct d as [|c' d']; intros [= <- <-]; [done|].
      apply span_digits_no_newline in Hd.
      by rewrite no_newline_cons, Hnl, Hd.
Qed.

Lemma scan_number_no_newline s tok fl r :
  scan_number s = Some (tok, fl, r) → no_newline tok = true.
Proof.
  unfold scan_number.
  destruct (match s with
            | String c s' =>
                if Ascii.eqb c "-" then (String c EmptyString, s')
                else (EmptyString, s)
            | EmptyString => (EmptyString, s)
            end) as [sign s1] eqn:Hsign.
  assert (Hs : no_newline sign = true).
  { destruct s as [|c s']; [by injection Hsign as <- <-|].
    destruct (Ascii.eqb_spec c "-") as [->|_]; by injection Hsign as <- <-. }
  destruct s1 as [|c s2]; [discriminate|].
  destruct (is_digit c) eqn:Hc; [|discriminate].
  destruct (if Ascii.eqb c "0" then _ else _) as [ip r0] eqn:Hip.
  assert (Hi : no_newline ip = true).
  { destruct (Ascii.eqb c "0").
    - injection Hip as <- <-.
      by rewrite no_newline_cons, (digit_not_newline c Hc).
    - by apply span_digits_no_newline in Hip. }
  destruct (scan_frac r0) as [frac r1] eqn:Hf.
  destruct (scan_exp r1) as [e r2] eqn:He. intros [= <- <- <-].
  rewrite !no_newline_app, Hs, Hi.
  by rewrite (scan_frac_no_newline _ _ _ Hf), (scan_exp_no_newline _ _ _ He).
Qed.

Lemma no_newline_int_repr z : no_newline (int_repr z) = true.
Proof.
  apply (scan_number_no_newline (int_repr z +:+ EmptyString) _ false EmptyString).
  by apply scan_int_repr.
Qed.

Lemma readline_terminated s rest :
  no_newline s = true →
  readline (s +:+ String newline rest) = Some (s +:+ String newline EmptyString, rest).
Proof.
  induction s as [|c s IH]; [done|]. cbn [no_newline String.append readline].
  intros [Hc Hs]%andb_prop. apply negb_true_iff in Hc. rewrite Hc.
  by rewrite IH.
Qed.

Lemma rstrip_terminated t c :
  is_space c = false →
  rstrip (t +:+ String c (String newline EmptyString)) = t +:+ String c EmptyString.
Proof.
  intros Hc. induction t as [|x t IH].
  - cbn. by rewrite Hc.
  - cbn [String.append rstrip]. rewrite IH.
    by destruct t.
Qed.

(** *** Scalar values *)

Lemma parse_value_number fs fuel c s' :
  (is_digit c || Ascii.eqb c "-") = true →
  parse_value fs (S fuel) (String c s')
  = match scan_number (String c s') with
    | Some (tok, fl, r) =>
        if fl then Ok (PFloat (fs tok), r)
        else if (token_digits tok <=? int_max_str_digits)%nat
             then Ok (PInt (int_of_str tok), r)
             else Raise ValueError
    | None =>
        match strip_prefix "-Infinity" (String c s') with
        | Some r => Ok (PFloat neg_infinity, r)
        | None => Raise JSONDecodeError
        end
    end.
Proof.
  destruct c as [[] [] [] [] [] [] [] []]; try discriminate; intros _;
    reflexivity.
Qed.

Section CodecProofs.

Variable float_repr : float → string.
Variable float_of_str : string → float.

(** What CPython guarantees of [repr] and [float] on finite floats:
    [float(repr(f)) == f], and [repr(f)] is a number literal with a
    fraction or an exponent. *)
Hypothesis float_repr_read :
  ∀ f, is_special f = false → float_of_str (float_repr f) = f.
Hypothesis float_repr_token :
  ∀ f rest, is_special f = false → delim_start rest = true →
            scan_number (float_repr f +:+ rest) = Some (float_repr f, true, rest).

Lemma parse_float fuel f rest :
  delim_start rest = true →
  parse_value float_of_str (S fuel) (float_text float_repr f +:+ rest)
  = Ok (PFloat f, rest).
Proof.
  intros Hrest. unfold float_text.
  destruct (f =? f)%float eqn:Hnan; cbn [negb].
  2: { by rewrite (float_nan_test f Hnan). }
  destruct (f =? infinity)%float eqn:Hinf.
  { by rewrite (float_inf_test f Hinf). }
  destruct (f =? neg_infinity)%float eqn:Hninf.
  { by rewrite (float_neg_inf_test f Hninf). }
  assert (Hsp : is_special f = false).
  { unfold is_special. by rewrite Hnan, Hinf, Hninf. }
  pose proof (float_repr_token f rest Hsp Hrest) as Htok.
  destruct (scan_number_head _ _ _ _ Htok) as (c & s' & Hs & Hc).
  rewrite Hs in *. rewrite (parse_value_number _ _ _ _ Hc), Htok.
  by rewrite float_repr_read.
Qed.

Lemma parse_scalar fuel v rest :
  scalar v = true → delim_start rest = true →
  parse_value float_of_str (S fuel) (dumps float_repr v +:+ rest)
  = Ok (v, rest).
Proof.
  intros Hv Hrest. destruct v as [|[]|z|f|s|l|d]; try discriminate.
  - reflexivity.
  - reflexivity.
  - reflexivity.
  - cbn [dumps].
    destruct (int_repr_head z) as (c & s' & Hs & Hc).
    pose proof (scan_int_repr z rest Hrest) as Htok.
    rewrite Hs in *. cbn [String.append] in *.
    rewrite (parse_value_number _ _ _ _ Hc), Htok.
    rewrite <- Hs, token_digits_int_repr, int_of_str_repr.
    cbn [scalar] in Hv. by rewrite Hv.
  - by apply parse_float.
  - cbn [dumps]. rewrite quote_app.
    cbn [parse_value]. cbn. by rewrite scan_string_escape.
Qed.

Lemma float_repr_head f :
  is_special f = false →
  ∃ c s', float_repr f = String c s'
          ∧ (is_digit c || Ascii.eqb c "-") = true.
Proof.
  intros Hsp. pose proof (float_repr_token f EmptyString Hsp eq_refl) as H.
  rewrite sapp_nil_r in H. by apply scan_number_head in H.
Qed.

Lemma float_text_cases f :
  float_text float_repr f = "NaN" ∨ float_text float_repr f = "Infinity"
  ∨ float_text float_repr f = "-Infinity"
  ∨ (is_special f = false ∧ float_text float_repr f = float_repr f).
Proof.
  unfold float_text, is_special.
  destruct (f =? f)%float; cbn [negb]; [|by left].
  destruct (f =? infinity)%float; [by right; left|].
  destruct (f =? neg_infinity)%float; [by right; right; left|].
  by right; right; right.
Qed.

Lemma dumps_scalar_head v :
  scalar v = true →
  ∃ c s', dumps float_repr v = String c s' ∧ is_json_ws c = false.
Proof.
  destruct v as [|[]|z|f|s|l|d]; try discriminate; intros _;
    try (by eexists _, _).
  - destruct (int_repr_head z) as (c & s' & Hs & Hc).
    exists c, s'. split; [done|]. by apply number_head_not_ws.
  - cbn [dumps].
    destruct (float_text_cases f) as [->|[->|[->|[Hsp ->]]]];
      try (by eexists _, _).
    destruct (float_repr_head f Hsp) as (c & s' & Hs & Hc).
    exists c, s'. split; [done|]. by apply number_head_not_ws.
Qed.

Lemma no_newline_scalar v :
  scalar v = true → no_newline (dumps float_repr v) = true.
Proof.
  destruct v as [|[]|z|f|s|l|d]; try discriminate; intros _; try done.
  - apply no_newline_int_repr.
  - cbn [dumps].
    destruct (float_text_cases f) as [->|[->|[->|[Hsp ->]]]]; try done.
    apply (scan_number_no_newline (float_repr f +:+ EmptyString)
                                  _ true EmptyString).
    by apply float_repr_token.
  - apply no_newline_quote.
Qed.

#[local] Abbreviation member := (member_text float_repr).

Lemma skip_ws_scalar v t :
  scalar v = true →
  skip_ws (String " " (dumps float_repr v +:+ t)) = dumps float_repr v +:+ t.
Proof.
  intros Hv. destruct (dumps_scalar_head v Hv) as (c & s' & -> & Hc).
  cbn [String.append]. change (skip_ws (String c (s' +:+ t)) = String c (s' +:+ t)).
  cbn [skip_ws]. by rewrite Hc.
Qed.

Lemma parse_scalar_fuel fuel v rest :
  (0 < fuel)%nat → scalar v = true → delim_start rest = true →
  parse_value float_of_str fuel (dumps float_repr v +:+ rest) = Ok (v, rest).
Proof. destruct fuel; [lia|]. intros _. apply parse_scalar. Qed.

Lemma skip_ws_non_ws c s : is_json_ws c = false → skip_ws (String c s) = String c s.
Proof. intros H. cbn [skip_ws]. by rewrite H. Qed.

(** One member: key, colon, value; [t] is what follows the value. *)
Lemma parse_member_step fuel k v t acc :
  (0 < fuel)%nat → scalar v = true → delim_start t = true →
  k ∉ map fst acc →
  parse_members float_of_str (S fuel)
    (escape k +:+ String dquote
                    (String ":" (String " " (dumps float_repr v +:+ t)))) acc
  = match skip_ws t with
    | String c2 r3 =>
        if Ascii.eqb c2 "}" then Ok (acc ++ [(k, v)], r3)
        else if Ascii.eqb c2 "," then
          match skip_ws r3 with
          | String c3 r4 =>
              if Ascii.eqb c3 dquote
              then parse_members float_of_str fuel r4 (acc ++ [(k, v)])
              else Raise JSONDecodeError
          | EmptyString => Raise JSONDecodeError
          end
        else Raise JSONDecodeError
    | EmptyString => Raise JSONDecodeError
    end.
Proof.
  intros Hf Hv Ht Hk. cbn [parse_members].
  rewrite scan_string_escape.
  rewrite (skip_ws_non_ws ":") by reflexivity.
  change (Ascii.eqb ":" ":") with true. cbv iota.
  rewrite skip_ws_scalar by done.
  rewrite parse_scalar_fuel by done.
  by rewrite dict_set_fresh.
Qed.

Lemma parse_members_flat d kv acc fuel rest :
  Forall (λ kv, scalar (snd kv) = true) (kv :: d) →
  NoDup (map fst (acc ++ kv :: d)) →
  (length (kv :: d) < fuel)%nat →
  ∃ body,
    join_with ", " (map member (kv :: d)) = String dquote body
    ∧ parse_members float_of_str fuel (body +:+ String "}" rest) acc
      = Ok (acc ++ kv :: d, rest).
Proof.
  revert kv acc fuel.
  induction d as [|kv' d IH]; intros [k v] acc fuel Hsc Hnd Hf;
    pose proof Hsc as Hsc'; apply Forall_cons in Hsc' as [Hv Hrest];
    cbn [snd] in Hv;
    (destruct fuel as [|fuel]; [cbn in Hf; lia|]);
    assert (Hfresh : k ∉ map fst acc)
      by (rewrite fmap_app in Hnd; apply NoDup_app in Hnd as (_ & Hd & _);
          intros Hin; apply (Hd k Hin); cbn; left).
  - eexists. split.
    { cbn [map join_with]. unfold member_text. cbn [fst snd]. apply quote_app. }
    rewrite !sapp_assoc. cbn [String.append].
    rewrite parse_member_step; [done|cbn in Hf; lia|done|done|done].
  - destruct (IH kv' (acc ++ [(k, v)]) fuel Hrest) as (body' & Hb & Hp).
    { by rewrite <- app_assoc. }
    { cbn in Hf |- *. lia. }
    eexists. split.
    { change (join_with ", " (map member ((k, v) :: kv' :: d)))
        with (member (k, v) +:+ ", " +:+ join_with ", " (map member (kv' :: d))).
      unfold member_text at 1. cbn [fst snd]. rewrite Hb.
      rewrite sapp_assoc. apply quote_app. }
    repeat first [rewrite sapp_assoc | progress cbn [String.append]].
    rewrite parse_member_step; [|cbn in Hf; lia|done|done|done].
    rewrite (skip_ws_non_ws ",") by reflexivity.
    change (Ascii.eqb "," "}") with false.
    change (Ascii.eqb "," ",") with true. cbv iota.
    change (skip_ws (String " " (String dquote (body' +:+ String "}" rest))))
      with (String dquote (body' +:+ String "}" rest)).
    change (Ascii.eqb dquote dquote) with true. cbv iota.
    rewrite Hp. by rewrite <- app_assoc.
Qed.

Lemma members_length d :
  (length d ≤ String.length (join_with ", " (map member d)))%nat.
Proof.
  induction d as [|kv d IH]; [done|].
  destruct d as [|kv' d].
  - cbn [map join_with length]. unfold member_text, quote. cbn. lia.
  - change (join_with ", " (map member (kv :: kv' :: d)))
      with (member kv +:+ ", " +:+ join_with ", " (map member (kv' :: d))).
    rewrite !sapp_length. cbn [length] in *. unfold member_text at 1, quote.
    cbn [String.append String.length]. lia.
Qed.

Lemma no_newline_members d :
  Forall (λ kv, scalar (snd kv) = true) d →
  no_newline (join_with ", " (map member d)) = true.
Proof.
  induction d as [|kv d IH]; [done|]. intros [Hv Hd]%Forall_cons.
  assert (Hm : no_newline (member kv) = true).
  { unfold member_text. rewrite !no_newline_app, no_newline_quote.
    by rewrite no_newline_scalar. }
  destruct d as [|kv' d]; [done|].
  change (join_with ", " (map member (kv :: kv' :: d)))
    with (member kv +:+ ", " +:+ join_with ", " (map member (kv' :: d))).
  rewrite !no_newline_app, Hm, IH by done. reflexivity.
Qed.

Lemma dumps_dict d :
  dumps float_repr (PDict d)
  = String "{" (join_with ", " (map member d) +:+ String "}" EmptyString).
Proof. reflexivity. Qed.

Lemma parse_value_object fuel s' :
  parse_value float_of_str (S fuel) (String "{" s')
  = match skip_ws s' with
    | String c1 r1 =>
        if Ascii.eqb c1 "}" then Ok (PDict [], r1)
        else if Ascii.eqb c1 dquote then
          match parse_members float_of_str fuel r1 [] with
          | Ok (d, r) => Ok (PDict d, r)
          | Raise e => Raise e
          end
        else Raise JSONDecodeError
    | EmptyString => Raise JSONDecodeError
    end.
Proof. reflexivity. Qed.

(** [json.loads] undoes [json.dumps] on a flat record. *)
Lemma loads_dumps_flat d :
  flat d → loads float_of_str (dumps float_repr (PDict d)) = Ok (PDict d).
Proof.
  intros [Hnd Hsc]. unfold loads. rewrite dumps_dict.
  rewrite (skip_ws_non_ws "{") by reflexivity.
  rewrite parse_value_object.
  destruct d as [|kv d]; [reflexivity|].
  destruct (parse_members_flat d kv []
              (String.length
                 (String "{" (join_with ", " (map member (kv :: d))
                              +:+ String "}" EmptyString)))
              EmptyString Hsc Hnd) as (body & Hb & Hp).
  { pose proof (members_length (kv :: d)) as Hl.
    cbn [String.length]. rewrite sapp_length. cbn [String.length] in *. lia. }
  rewrite Hb in *. cbn [String.append] in *.
  rewrite (skip_ws_non_ws dquote) by reflexivity.
  change (Ascii.eqb dquote "}") with false.
  change (Ascii.eqb dquote dquote) with true. cbv iota.
  rewrite Hp. reflexivity.
Qed.

Lemma strip_encode d :
  strip (encode float_repr (PDict d)) = dumps float_repr (PDict d).
Proof.
  unfold encode, strip. rewrite dumps_dict. cbn [String.append].
  rewrite sapp_assoc. cbn [String.append lstrip].
  change (is_space "{") with false. cbv iota.
  apply (rstrip_terminated (String "{" _) "}"). reflexivity.
Qed.

(** The reader gets back the record that was sent. *)
Lemma decode_encode_flat d :
  flat d →
  decode float_of_str (encode float_repr (PDict d)) = Ok (Some (PDict d)).
Proof.
  intros Hd. unfold decode. rewrite strip_encode.
  pose proof (loads_dumps_flat d Hd) as Hl.
  rewrite dumps_dict in *. cbv iota. by rewrite Hl.
Qed.

(** The line iterator cuts the stream right after the record. *)
Lemma readline_encode_flat d rest :
  flat d →
  readline (encode float_repr (PDict d) +:+ rest)
  = Some (encode float_repr (PDict d), rest).
Proof.
  intros [_ Hsc]. unfold encode. rewrite sapp_assoc. cbn [String.append].
  apply readline_terminated. rewrite dumps_dict.
  rewrite no_newline_cons, no_newline_app, no_newline_members by done.
  reflexivity.
Qed.

Lemma dumpable_dict d :
  dumpable (PDict d) = true ↔ Forall (λ kv, dumpable (snd kv) = true) d.
Proof.
  cbn [dumpable]. rewrite forallb_forall, Forall_forall.
  split; intros H kv Hkv; apply H; by apply list_elem_of_In.
Qed.

Lemma flat_dumpable d : flat d → dumpable (PDict d) = true.
Proof.
  intros [_ Hsc]. apply dumpable_dict. eapply Forall_impl; [exact Hsc|].
  intros [k v] Hv. cbn [snd] in *. by destruct v.
Qed.

Lemma send_data_flat d :
  flat d → send_data float_repr (PDict d) = Ok (encode float_repr (PDict d)).
Proof.
  intros Hd. unfold send_data, json_dumps. by rewrite (flat_dumpable d Hd).
Qed.



(** The record the server broadcasts for a chat message survives the
    trip as well, [null] fields included, when the inbound [from], [text]
    and [client_ts] are scalars. *)
Lemma chat_out_round_trip d now :
  scalar (dict_get d "from" (PStr "?")) = true →
  scalar (dict_get d "text" (PStr "")) = true →
  scalar (dict_get d "client_ts" PNone) = true →
  decode float_of_str (encode float_repr (PDict (chat_out d now)))
  = Ok (Some (PDict (chat_out d now))).
Proof.
  intros Hf Ht Hc. apply decode_encode_flat. split.
  - cbn. apply (bool_decide_unpack _). by vm_compute.
  - unfold chat_out. repeat constructor; done.
Qed.


End CodecProofs.

(** *** A float text that meets the two assumptions *)

Lemma uint_of_digits_string d :
  uint_of_digits (NilEmpty.string_of_uint d) = d.
Proof. unfold uint_of_digits. by rewrite NilEmpty.usu. Qed.

Lemma N_to_uint_head m :
  ∃ c s', NilEmpty.string_of_uint (N.to_uint m) = String c s'
          ∧ is_digit c = true.
Proof.
  destruct m as [|p]; [by eexists _, _|].
  apply uint_head, to_uint_nonzero_head.
Qed.

Lemma digit_not_minus c : is_digit c = true → Ascii.eqb c "-" = false.
Proof. destruct c as [[] [] [] [] [] [] [] []]; try discriminate; done. Qed.

Lemma fields_value_repr f :
  ∃ sg m e, fields_repr f = fields_text sg m e
            ∧ SF2Prim (fields_value sg m e) = f.
Proof.
  unfold fields_repr. pose proof (SF2Prim_Prim2SF f) as H.
  destruct (Prim2SF f) as [s|s| |s m e].
  - by exists s, 0%N, 0.
  - by exists s, 0%N, 1.
  - by exists false, 0%N, 2.
  - by exists s, (Npos m), e.
Qed.

Lemma fields_parse_text sg m e :
  fields_parse (fields_text sg m e) = SF2Prim (fields_value sg m e).
Proof.
  destruct (N_to_uint_head m) as (c & s' & Hs & Hc).
  assert (Hspan : span_digits
                    (NilEmpty.string_of_uint (N.to_uint m)
                     +:+ String "e" (String (exp_sign e)
                           (NilEmpty.string_of_uint (N.to_uint (Z.abs_N e)))))
                  = (NilEmpty.string_of_uint (N.to_uint m),
                     String "e" (String (exp_sign e)
                           (NilEmpty.string_of_uint (N.to_uint (Z.abs_N e)))))).
  { by apply digit_chars_span. }
  assert (Hexp : span_digits (NilEmpty.string_of_uint (N.to_uint (Z.abs_N e)))
                 = (NilEmpty.string_of_uint (N.to_uint (Z.abs_N e)), EmptyString)).
  { rewrite <- (sapp_nil_r (NilEmpty.string_of_uint _)) at 1.
    by apply digit_chars_span. }
  assert (He : (if Ascii.eqb (exp_sign e) "-"
                then - Z.of_N (Z.abs_N e) else Z.of_N (Z.abs_N e)) = e).
  { rewrite N2Z.inj_abs_N. unfold exp_sign.
    destruct (Z.ltb_spec e 0); cbn; lia. }
  unfold fields_parse, fields_text.
  destruct sg; cbn [String.append].
  - change (Ascii.eqb "-" "-") with true. cbv iota.
    rewrite Hspan, Hexp. cbn [fst].
    rewrite !uint_of_digits_string, !DecimalN.Unsigned.of_to. by rewrite He.
  - rewrite Hs in *. cbn [String.append] in *.
    rewrite (digit_not_minus c Hc). rewrite Hspan, Hexp. cbn [fst].
    rewrite <- Hs. rewrite !uint_of_digits_string, !DecimalN.Unsigned.of_to.
    by rewrite He.
Qed.

Lemma scan_fields_text sg m e rest :
  delim_start rest = true →
  scan_number (fields_text sg m e +:+ rest)
  = Some (fields_text sg m e, true, rest).
Proof.
  intros Hrest.
  set (ed := NilEmpty.string_of_uint (N.to_uint (Z.abs_N e))).
  set (sc := exp_sign e).
  assert (Hed : ∃ c s', ed = String c s') by
    (destruct (N_to_uint_head (Z.abs_N e)) as (c & s' & Hs & _); by eexists _, _).
  assert (Hexp : scan_exp (String "e" (String sc (ed +:+ rest)))
                 = (String "e" (String sc ed), rest)).
  { unfold scan_exp. change (Ascii.eqb "e" "e" || Ascii.eqb "e" "E") with true.
    cbv iota.
    assert (Hsc : (Ascii.eqb sc "+" || Ascii.eqb sc "-") = true)
      by (unfold sc, exp_sign; by destruct (e <? 0)%Z).
    rewrite Hsc. unfold ed at 1.
    rewrite digit_chars_span by (by apply delim_not_digit).
    fold ed. destruct Hed as (c & s' & ->). reflexivity. }
  assert (Hmain : scan_number (NilEmpty.string_of_uint (N.to_uint m)
                               +:+ String "e" (String sc (ed +:+ rest)))
                  = Some (NilEmpty.string_of_uint (N.to_uint m)
                          +:+ String "e" (String sc ed), true, rest)).
  { destruct m as [|p].
    - change (scan_number (String "0" (String "e" (String sc (ed +:+ rest))))
              = Some (String "0" (String "e" (String sc ed)), true, rest)).
      unfold scan_number. cbn -[scan_exp]. by rewrite Hexp.
    - rewrite scan_number_unsigned; [|apply to_uint_nonzero_head|done].
      change (scan_frac (String "e" (String sc (ed +:+ rest))))
        with (EmptyString, String "e" (String sc (ed +:+ rest))).
      cbv iota beta. by rewrite Hexp. }
  unfold fields_text. fold ed sc. destruct sg.
  - rewrite !sapp_assoc. cbn [String.append].
    destruct (N_to_uint_head m) as (c & s' & Hs & Hc).
    rewrite Hs in *. cbn [String.append] in *.
    by rewrite scan_number_minus, Hmain.
  - rewrite !sapp_assoc. cbn [String.append]. exact Hmain.
Qed.

Lemma fields_repr_read f : fields_parse (fields_repr f) = f.
Proof.
  destruct (fields_value_repr f) as (sg & m & e & -> & Hv).
  by rewrite fields_parse_text.
Qed.

Lemma fields_repr_token f rest :
  delim_start rest = true →
  scan_number (fields_repr f +:+ rest) = Some (fields_repr f, true, rest).
Proof.
  destruct (fields_value_repr f) as (sg & m & e & -> & _).
  apply scan_fields_text.
Qed.





(* ================================================================== *)
(** * Further properties of the server *)

Lemma join_steps net c addr w :
  join net c addr w
  = broadcast net (PDict (info (addr +:+ " joined"))) None (register c w).
Proof. reflexivity. Qed.

Lemma leave_steps net c addr w :
  leave net c addr w
  = broadcast net (PDict (info (addr +:+ " left"))) None
              (close_conn c (unregister c w)).
Proof. reflexivity. Qed.

Lemma broadcast_subseteq net m ex w : clients (broadcast net m ex w) ⊆ clients w.
Proof. rewrite broadcast_clients. set_solver. Qed.

Lemma elem_of_broadcast_clients net m w c :
  c ∈ clients (broadcast net m None w) ↔ c ∈ clients w ∧ net c = true.
Proof.
  rewrite broadcast_clients, elem_of_difference, elem_of_list_to_set.
  rewrite list_elem_of_filter, elem_of_targets.
  destruct (net c); naive_solver.
Qed.

Lemma handle_msg_subseteq net now c0 msg w :
  clients (snd (handle_msg net now c0 msg w)) ⊆ clients w.
Proof.
  unfold handle_msg. destruct msg as [| | | | | |d]; cbn [snd]; try done.
  destruct (py_eq_str _ "chat"); cbn [snd]; [apply broadcast_subseteq|].
  by destruct (py_eq_str _ "sync_request").
Qed.

Lemma handle_line_subseteq loads net now c0 line w :
  clients (snd (handle_line loads net now c0 line w)) ⊆ clients w.
Proof.
  unfold handle_line. destruct (strip line); [done|].
  destruct (loads _) as [msg|[]]; [apply handle_msg_subseteq|done..].
Qed.

Lemma read_loop_subseteq loads c0 ins w :
  clients (read_loop loads c0 ins w) ⊆ clients w.
Proof.
  revert w. induction ins as [|i ins IH]; intros w; [done|].
  cbn [read_loop].
  pose proof (handle_line_subseteq loads (in_net i) (in_now i) c0 (in_line i) w).
  destruct (handle_line _ _ _ _ _ _) as [[u|e] w'].
  - cbn [snd] in *. etrans; [apply IH|done].
  - done.
Qed.

Lemma unregister_clients c w : clients (unregister c w) = clients w ∖ {[c]}.
Proof.
  unfold unregister. case_bool_decide; cbn; [done|]. set_solver.
Qed.



(** The interleaving in which a joiner is written no join notice: while
    handler 2 is between its add and its join broadcast, handler 1
    broadcasts a chat record and the write to connection 2 fails, so 2 is
    discarded; the join notice of 2 then goes to connection 1 only. *)
Lemma joiner_dropped_before_notice :
  ∃ s s',
    rtc (server_step (λ _, Ok (PDict chat_a))) server_init s
    ∧ handlers s !! 2%nat = Some Registered
    ∧ server_step (λ _, Ok (PDict chat_a)) s s'
    ∧ handlers s' !! 2%nat = Some Active
    ∧ (2%nat ∉ clients (shared s))
    ∧ (∀ m ok, EvSend 2%nat m ok ∉ since (shared s) (shared s'))
    ∧ (2%nat ∉ clients (shared s')).
Proof.
  set (loads := λ _ : string, Ok (PDict chat_a)).
  set (i := mkInput "x" 0%float (λ x, negb (Nat.eqb x 2))).
  assert (Hline : ∀ w, handle_line loads (in_net i) (in_now i) 1%nat
                                   (in_line i) w
                       = (Ok tt, broadcast (in_net i)
                                           (PDict (chat_out chat_a (in_now i)))
                                           None w))
    by reflexivity.
  set (h2 := <[1%nat := Active]> (<[1%nat := Registered]>
               (<[1%nat := Accepted]> (∅ : gmap conn phase)))).
  set (w3 := broadcast (λ _, true) (PDict (info ("a" +:+ " joined"))) None
               (register 1%nat (world_of ∅))).
  set (w6 := broadcast (in_net i) (PDict (chat_out chat_a (in_now i))) None
               (register 2%nat w3)).
  set (h6 := <[1%nat := Active]> (<[2%nat := Registered]>
               (<[2%nat := Accepted]> h2))).
  assert (Hreg : h6 !! 2%nat = Some Registered).
  { unfold h6. rewrite lookup_insert_ne by done. apply lookup_insert_eq. }
  assert (Hout : 2%nat ∉ clients w6).
  { unfold w6. rewrite elem_of_broadcast_clients. cbn. naive_solver. }
  exists (mkServer w6 h6),
         (mkServer (broadcast (λ _, true) (PDict (info ("b" +:+ " joined")))
                              None w6)
                   (<[2%nat := Active]> h6)).
  split; [|split; [exact Hreg|split; [|split; [|split; [exact Hout|split]]]]].
  - eapply rtc_l; [apply (step_accept loads 1%nat); reflexivity|].
    eapply rtc_l; [apply (step_register loads 1%nat); apply lookup_insert_eq|].
    eapply rtc_l.
    { apply (step_join_notice loads 1%nat "a" (λ _, true)).
      apply lookup_insert_eq. }
    cbn [shared handlers]. fold w3. fold h2.
    eapply rtc_l.
    { apply (step_accept loads 2%nat). cbn [handlers]. unfold h2.
      rewrite !lookup_insert_ne by done. reflexivity. }
    eapply rtc_l; [apply (step_register loads 2%nat); apply lookup_insert_eq|].
    cbn [shared handlers].
    eapply rtc_l.
    { apply (step_line loads 1%nat i). cbn [handlers].
      rewrite !lookup_insert_ne by done. unfold h2. apply lookup_insert_eq. }
    cbn [shared handlers]. rewrite Hline. cbn [fst snd].
    fold w6. fold h6. apply rtc_refl.
  - by apply (step_join_notice loads 2%nat "b" (λ _, true) (mkServer w6 h6)).
  - cbn [handlers]. apply lookup_insert_eq.
  - intros m ok. cbn [shared]. rewrite elem_of_broadcast_since. naive_solver.
  - cbn [shared]. rewrite elem_of_broadcast_clients. naive_solver.
Qed.

Lemma unregister_trace c w :
  ∃ evs, trace (unregister c w) = trace w ++ evs
         ∧ lock_walk false evs = Some false
         ∧ ∀ x m ok, EvSend x m ok ∉ evs.
Proof.
  unfold unregister. case_bool_decide; eexists; (split; [reflexivity|]);
    (split; [reflexivity|]); intros x m ok Hin;
    apply list_elem_of_In in Hin; cbn in Hin; naive_solver.
Qed.

(** X2.  Leaving removes the handler's connection before anything is
    written: the connection is closed first, the leave notice is written
    only to connections that are still registered, never to the leaving
    one, and afterwards the connection is not in the registry. *)
Theorem leave_unregisters_first
        (net : conn → bool) (c : conn) (addr : string) (w : world) :
  let w' := leave net c addr w in
  (c ∉ clients w')
  ∧ clients w' ⊆ clients w ∖ {[c]}
  ∧ ∃ pre post,
      since w w' = pre ++ [EvClose c] ++ post
      ∧ (∀ x m ok, EvSend x m ok ∉ pre)
      ∧ (∀ x m ok, EvSend x m ok ∈ post →
                   x ≠ c ∧ x ∈ clients w
                   ∧ m = PDict (info (addr +:+ " left")) ∧ ok = net x).
Proof.
  intros w'. unfold w'. rewrite leave_steps.
  assert (Hsub : clients (broadcast net (PDict (info (addr +:+ " left"))) None
                                    (close_conn c (unregister c w)))
                 ⊆ clients w ∖ {[c]}).
  { etrans; [apply broadcast_subseteq|]. cbn. by rewrite unregister_clients. }
  split; [set_solver|]. split; [exact Hsub|].
  destruct (unregister_trace c w) as (pre & Hpre & _ & Hns).
  exists pre, (since (close_conn c (unregister c w))
                     (broadcast net (PDict (info (addr +:+ " left"))) None
                                (close_conn c (unregister c w)))).
  split; [|split; [exact Hns|]].
  - unfold since at 1. rewrite broadcast_trace. cbn [close_conn emit trace].
    rewrite Hpre, <- !app_assoc. by rewrite drop_app_length.
  - intros x m ok. rewrite elem_of_broadcast_since.
    cbn [close_conn emit clients]. rewrite unregister_clients.
    intros (-> & [Hx _] & ->). set_solver.
Qed.

(** X3.  A whole session leaves nothing behind: when [handle_client]
    returns, its connection is not registered and no connection has
    been added to the registry. *)
Theorem handle_client_cleans_up
        (loads : string → result pyval) (c : conn) (addr : string)
        (net_join : conn → bool) (ins : list input) (net_leave : conn → bool)
        (w : world) :
  let w' := handle_client loads c addr net_join ins net_leave w in
  (c ∉ clients w') ∧ clients w' ⊆ clients w ∖ {[c]}.
Proof.
  intros w'. unfold w', handle_client. rewrite leave_steps.
  assert (H : clients (broadcast net_leave (PDict (info (addr +:+ " left"))) None
                         (close_conn c (unregister c
                            (read_loop loads c ins (join net_join c addr w)))))
              ⊆ clients w ∖ {[c]}).
  { etrans; [apply broadcast_subseteq|]. cbn. rewrite unregister_clients.
    pose proof (read_loop_subseteq loads c ins (join net_join c addr w)) as H1.
    pose proof (broadcast_subseteq net_join
                  (PDict (info (addr +:+ " joined"))) None (register c w)) as H2.
    rewrite <- join_steps in H2. cbn in H2. set_solver. }
  split; [set_solver|exact H].
Qed.

(** X4.  A record for which [json.loads] raises [JSONDecodeError], and a
    JSON object whose [type] is neither ["chat"] nor ["sync_request"], are
    ignored: nothing is written, the world is as before and the read loop
    goes on with the next record.  (Any other exception of [json.loads]
    is not caught by the inner [try]: see X5.) *)
Theorem unrecognised_record_ignored
        (loads : string → result pyval) (net : conn → bool) (now : float)
        (c0 : conn) (line : string) (w : world) :
  loads (strip line) = Raise JSONDecodeError
  ∨ (∃ d, loads (strip line) = Ok (PDict d)
          ∧ py_eq_str (dict_get d "type" PNone) "chat" = false
          ∧ py_eq_str (dict_get d "type" PNone) "sync_request" = false) →
  handle_line loads net now c0 line w = (Ok tt, w)
  ∧ (∀ ins, read_loop loads c0 (mkInput line now net :: ins) w
            = read_loop loads c0 ins w).
Proof.
  intros Hcase.
  assert (H : handle_line loads net now c0 line w = (Ok tt, w)).
  { unfold handle_line. destruct (strip line) as [|a s]; [done|].
    destruct Hcase as [->|(d & -> & Hc & Hs)]; [done|].
    unfold handle_msg. by rewrite Hc, Hs. }
  split; [exact H|]. intros ins. cbn [read_loop in_line in_now in_net].
  by rewrite H.
Qed.

Lemma unrecognised_record_ignored_witness :
  handle_line (λ _, Ok (PDict [("type", PStr "ping")])) (λ _, true) 0%float
              1%nat "x" (world_of {[1%nat]})
  = (Ok tt, world_of {[1%nat]}).
Proof.
  refine (proj1 (unrecognised_record_ignored
                   (λ _, Ok (PDict [("type", PStr "ping")])) (λ _, true)
                   0%float 1%nat "x" (world_of {[1%nat]}) _)).
  right. eexists. repeat split; reflexivity.
Defined.

(** X5.  The read loop stops at the first exception, and what was still
    to be read is never handled.  That happens when a record decodes to a
    JSON value that is not an object ([msg.get] raises), when the reply
    to a [sync_request] cannot be written, and when [json.loads] raises
    anything but [JSONDecodeError]; the handler then runs its Leaving
    step at once. *)
Theorem exception_ends_session
        (loads : string → result pyval) (c0 : conn) (addr : string)
        (net_join net_leave : conn → bool) (i : input) (ins : list input)
        (w : world) :
  strip (in_line i) ≠ EmptyString →
  (∃ v, loads (strip (in_line i)) = Ok v ∧ ∀ d, v ≠ PDict d)
  ∨ (∃ d, loads (strip (in_line i)) = Ok (PDict d)
          ∧ py_eq_str (dict_get d "type" PNone) "sync_request" = true
          ∧ in_net i c0 = false)
  ∨ (∃ e, loads (strip (in_line i)) = Raise e ∧ e ≠ JSONDecodeError) →
  (∃ e w', handle_line loads (in_net i) (in_now i) c0 (in_line i) w
           = (Raise e, w')
           ∧ clients w' = clients w
           ∧ read_loop loads c0 (i :: ins) w = w')
  ∧ handle_client loads c0 addr net_join (i :: ins) net_leave w
    = handle_client loads c0 addr net_join [i] net_leave w.
Proof.
  intros Hne Hcase.
  assert (H : ∀ w0, ∃ e w', handle_line loads (in_net i) (in_now i) c0
                                        (in_line i) w0 = (Raise e, w')
                            ∧ clients w' = clients w0).
  { intros w0. unfold handle_line.
    destruct (strip (in_line i)) as [|a s]; [done|].
    destruct Hcase as [(v & -> & Hv)|[(d & -> & Hs & Hn)|(e & -> & He)]].
    - exists AttributeError, w0. split; [|done].
      destruct v; try done. by destruct (Hv d).
    - exists OSError. eexists. unfold handle_msg.
      apply py_eq_str_true in Hs. rewrite Hs. cbn. rewrite Hn. done.
    - exists e, w0. by destruct e. }
  split.
  - destruct (H w) as (e & w' & Hl & Hc). exists e, w'.
    split; [done|]. split; [done|]. cbn [read_loop]. by rewrite Hl.
  - unfold handle_client. f_equal. cbn [read_loop].
    destruct (H (join net_join c0 addr w)) as (e & w' & -> & _). done.
Qed.

Lemma exception_ends_session_witness :
  ∃ e w', handle_line (λ _, Ok (PInt 5)) (λ _, true) 0%float 1%nat "5"
                      (world_of {[1%nat]}) = (Raise e, w')
          ∧ clients w' = clients (world_of {[1%nat]})
          ∧ read_loop (λ _, Ok (PInt 5)) 1%nat
                      [mkInput "5" 0%float (λ _, true);
                       mkInput "never read" 0%float (λ _, true)]
                      (world_of {[1%nat]}) = w'.
Proof.
  refine (proj1 (exception_ends_session (λ _, Ok (PInt 5)) 1%nat "a"
                   (λ _, true) (λ _, true)
                   (mkInput "5" 0%float (λ _, true))
                   [mkInput "never read" 0%float (λ _, true)]
                   (world_of {[1%nat]}) _ _)).
  - discriminate.
  - left. exists (PInt 5). split; [reflexivity|]. discriminate.
Defined.

(** ** Use of the registry lock *)

Lemma lock_walk_app h a b :
  lock_walk h (a ++ b) = lock_walk h a ≫= λ h', lock_walk h' b.
Proof.
  revert h. induction a as [|e a IH]; intros h; [done|].
  destruct e, h; cbn; try done; apply IH.
Qed.

Lemma lock_walk_sends l m net rest :
  lock_walk true (map (λ c, EvSend c m (net c)) l ++ rest) = lock_walk true rest.
Proof. induction l as [|c l IH]; [done|]. exact IH. Qed.

Lemma lock_walk_discards l rest :
  lock_walk true (map EvDiscard l ++ rest) = lock_walk true rest.
Proof. induction l as [|c l IH]; [done|]. exact IH. Qed.

Lemma steady_refl w : steady w w.
Proof. exists []. by rewrite app_nil_r. Qed.

Lemma steady_trans w1 w2 w3 : steady w1 w2 → steady w2 w3 → steady w1 w3.
Proof.
  intros (e1 & H1 & L1) (e2 & H2 & L2). exists (e1 ++ e2). split.
  - by rewrite H2, H1, app_assoc.
  - rewrite lock_walk_app, L1. exact L2.
Qed.

Lemma steady_since w w' : steady w w' → lock_walk false (since w w') = Some false.
Proof.
  intros (evs & H & L). unfold since. by rewrite H, drop_app_length.
Qed.

Lemma steady_broadcast net m ex w : steady w (broadcast net m ex w).
Proof.
  eexists. split; [rewrite broadcast_trace, broadcast_since; reflexivity|].
  cbn. by rewrite lock_walk_sends, lock_walk_discards.
Qed.

Lemma steady_emit_free evs w :
  lock_walk false evs = Some false → steady w (emit evs w).
Proof. intros H. by exists evs. Qed.

Lemma steady_handle_line loads net now c0 line w :
  steady w (snd (handle_line loads net now c0 line w)).
Proof.
  unfold handle_line. destruct (strip line); [apply steady_refl|].
  destruct (loads _) as [msg|[]]; [|apply steady_refl..].
  unfold handle_msg. destruct msg as [| | | | | |d]; try apply steady_refl.
  destruct (py_eq_str _ "chat"); [apply steady_broadcast|].
  destruct (py_eq_str _ "sync_request"); [|apply steady_refl].
  by apply steady_emit_free.
Qed.

Lemma steady_read_loop loads c0 ins w : steady w (read_loop loads c0 ins w).
Proof.
  revert w. induction ins as [|i ins IH]; intros w; [apply steady_refl|].
  cbn [read_loop].
  pose proof (steady_handle_line loads (in_net i) (in_now i) c0 (in_line i) w) as H.
  destruct (handle_line _ _ _ _ _ _) as [[u|e] w']; cbn [snd] in H; [|done].
  eapply steady_trans; [exact H|apply IH].
Qed.

Lemma steady_register c w : steady w (register c w).
Proof. by eexists. Qed.

Lemma steady_unregister c w : steady w (unregister c w).
Proof. destruct (unregister_trace c w) as (evs & H & L & _). by exists evs. Qed.

Lemma steady_close c w : steady w (close_conn c w).
Proof. by apply steady_emit_free. Qed.

(** X6.  Over a whole session the handler uses [clients_lock] properly:
    it never acquires the lock while holding it, never releases it while
    it is free, changes [clients] only while holding it, and holds
    nothing when it returns. *)
Theorem handle_client_lock_discipline
        (loads : string → result pyval) (c : conn) (addr : string)
        (net_join : conn → bool) (ins : list input) (net_leave : conn → bool)
        (w : world) :
  lock_walk false
    (since w (handle_client loads c addr net_join ins net_leave w))
  = Some false.
Proof.
  apply steady_since. unfold handle_client. rewrite leave_steps, join_steps.
  eapply steady_trans; [apply steady_register|].
  eapply steady_trans; [apply steady_broadcast|].
  eapply steady_trans; [apply steady_read_loop|].
  eapply steady_trans; [apply steady_unregister|].
  eapply steady_trans; [apply steady_close|].
  apply steady_broadcast.
Qed.

(** ** Handlers running side by side *)

Lemma in_session_cases p :
  in_session (Some p) ↔ p = Registered ∨ p = Active ∨ p = Exiting.
Proof. unfold in_session. naive_solver. Qed.

Lemma tracked_update s w' c p :
  registry_tracked s →
  clients w' ⊆ {[c]} ∪ clients (shared s) →
  (c ∈ clients w' → in_session (Some p)) →
  registry_tracked {| shared := w'; handlers := <[c := p]> (handlers s) |}.
Proof.
  intros Hinv Hsub Hc x Hx. cbn in *.
  destruct (decide (x = c)) as [->|Hne].
  - rewrite lookup_insert_eq. by apply Hc.
  - rewrite lookup_insert_ne by done. apply Hinv. set_solver.
Qed.

Lemma server_step_tracked loads s s' :
  server_step loads s s' → registry_tracked s → registry_tracked s'.
Proof.
  intros Hstep Hinv.
  assert (Hout : ∀ c p, handlers s !! c = p → ¬ in_session p →
                        c ∉ clients (shared s)).
  { intros c p <- Hp Hin. by apply Hp, Hinv. }
  destruct Hstep as [c s H|c s H|c s H|c addr net s H|c i s H|c s H|c s H
                    |c s H|c addr net s H];
    (apply tracked_update; [exact Hinv| |]).
  - set_solver.
  - intros Hc. exfalso. revert Hc. eapply Hout; [exact H|].
    unfold in_session. naive_solver.
  - unfold register. cbn [clients]. set_solver.
  - intros _. unfold in_session. naive_solver.
  - set_solver.
  - intros _. unfold in_session. naive_solver.
  - pose proof (broadcast_subseteq net (PDict (info (addr +:+ " joined")))
                                   None (shared s)). set_solver.
  - intros _. unfold in_session. naive_solver.
  - pose proof (handle_line_subseteq loads (in_net i) (in_now i) c (in_line i)
                                     (shared s)). set_solver.
  - intros _. destruct (fst _); unfold in_session; naive_solver.
  - set_solver.
  - intros _. unfold in_session. naive_solver.
  - rewrite unregister_clients. set_solver.
  - rewrite unregister_clients. set_solver.
  - unfold close_conn, emit. cbn [clients]. set_solver.
  - unfold close_conn, emit. cbn [clients]. intros Hc. exfalso. revert Hc.
    eapply Hout; [exact H|]. unfold in_session. naive_solver.
  - pose proof (broadcast_subseteq net (PDict (info (addr +:+ " left")))
                                   None (shared s)). set_solver.
  - intros Hc. exfalso.
    apply (broadcast_subseteq net (PDict (info (addr +:+ " left"))) None) in Hc.
    revert Hc. eapply Hout; [exact H|]. unfold in_session. naive_solver.
Qed.

(** X7.  However the handler threads interleave, every connection in
    the registry belongs to a handler that has added itself and has not
    yet run the removal of its [finally] block; a connection whose
    handler is not in that span (not yet registered, or past the removal)
    is never in the registry. *)
Theorem registry_tracks_sessions (loads : string → result pyval) (s : server) :
  rtc (server_step loads) server_init s →
  registry_tracked s
  ∧ (∀ c p, handlers s !! c = Some p →
            p = Accepted ∨ p = Unregistered ∨ p = Closing ∨ p = Closed →
            c ∉ clients (shared s))
  ∧ (∀ c, handlers s !! c = None → c ∉ clients (shared s)).
Proof.
  intros Hrun.
  assert (Hinv : registry_tracked s).
  { revert s Hrun. apply (rtc_ind_r (λ s, registry_tracked s)).
    - intros c Hc. cbn in Hc. set_solver.
    - intros y z _ Hstep Hy. by eapply server_step_tracked. }
  split; [exact Hinv|]. split.
  - intros c p Hp Hcase Hc. apply Hinv in Hc. rewrite Hp in Hc.
    apply in_session_cases in Hc. naive_solver.
  - intros c Hp Hc. apply Hinv in Hc. rewrite Hp in Hc.
    unfold in_session in Hc. naive_solver.
Qed.

Lemma registry_tracks_sessions_witness :
  registry_tracked
    {| shared := register 1%nat (world_of ∅);
       handlers := <[1%nat := Registered]> (<[1%nat := Accepted]> ∅) |}.
Proof.
  refine (proj1 (registry_tracks_sessions (λ _, Raise JSONDecodeError) _ _)).
  eapply rtc_l; [apply (step_accept _ 1%nat); reflexivity|].
  eapply rtc_l; [apply (step_register _ 1%nat); apply lookup_insert_eq|].
  apply rtc_refl.
Defined.

Lemma read_loop_run loads c ins w (h : gmap conn phase) :
  h !! c = Some Active →
  rtc (server_step loads) {| shared := w; handlers := h |}
      {| shared := read_loop loads c ins w; handlers := <[c := Exiting]> h |}.
Proof.
  revert w h. induction ins as [|i ins IH]; intros w h Hc.
  - apply rtc_once. by apply (step_eof loads c (mkServer w h)).
  - cbn [read_loop].
    pose proof (step_line loads c i (mkServer w h) Hc) as Hstep.
    cbn [shared handlers] in Hstep.
    destruct (handle_line loads (in_net i) (in_now i) c (in_line i) w)
      as [[u|e] w']; cbn [fst snd] in Hstep.
    + eapply rtc_l; [exact Hstep|].
      replace (<[c := Exiting]> h) with (<[c := Exiting]> (<[c := Active]> h))
        by apply insert_insert_eq.
      apply IH. apply lookup_insert_eq.
    + by apply rtc_once.
Qed.

(** X8.  One run of [handle_client] is one path of the interleaving
    model: from a state in which the connection has just been accepted,
    the steps of its handler, taken without interruption, lead to the
    state in which the shared world is the result of [handle_client] and
    the handler is closed. *)
Theorem handle_client_is_a_run
        (loads : string → result pyval) (c : conn) (addr : string)
        (net_join : conn → bool) (ins : list input) (net_leave : conn → bool)
        (s : server) :
  handlers s !! c = Some Accepted →
  rtc (server_step loads) s
      {| shared := handle_client loads c addr net_join ins net_leave (shared s);
         handlers := <[c := Closed]> (handlers s) |}.
Proof.
  intros Hc. destruct s as [w h]. cbn [shared handlers] in *.
  unfold handle_client. rewrite leave_steps, join_steps.
  eapply rtc_l; [by apply (step_register loads c (mkServer w h))|].
  cbn [shared handlers].
  eapply rtc_l.
  { apply (step_join_notice loads c addr net_join). apply lookup_insert_eq. }
  cbn [shared handlers]. rewrite insert_insert_eq.
  etrans.
  { apply (read_loop_run loads c ins). apply lookup_insert_eq. }
  rewrite insert_insert_eq.
  eapply rtc_l.
  { apply (step_unregister loads c). apply lookup_insert_eq. }
  cbn [shared handlers]. rewrite insert_insert_eq.
  eapply rtc_l.
  { apply (step_close loads c). apply lookup_insert_eq. }
  cbn [shared handlers]. rewrite insert_insert_eq.
  eapply rtc_l.
  { apply (step_leave_notice loads c addr net_leave). apply lookup_insert_eq. }
  cbn [shared handlers]. rewrite insert_insert_eq. apply rtc_refl.
Qed.

Lemma handle_client_is_a_run_witness :
  rtc (server_step (λ _, Raise JSONDecodeError))
      {| shared := world_of ∅; handlers := <[1%nat := Accepted]> ∅ |}
      {| shared := handle_client (λ _, Raise JSONDecodeError) 1%nat "a" (λ _, true) []
                                 (λ _, true) (world_of ∅);
         handlers := <[1%nat := Closed]> (<[1%nat := Accepted]> ∅) |}.
Proof.
  pose proof (handle_client_is_a_run (λ _, Raise JSONDecodeError) 1%nat "a" (λ _, true) []
                (λ _, true)
                {| shared := world_of ∅; handlers := <[1%nat := Accepted]> ∅ |}
                (lookup_insert_eq _ _ _)) as Hrun.
  exact Hrun.
Defined.

(* ================================================================== *)
(** * Further properties of the client *)

(** ** The clock and the sync round *)

Lemma float_of_int_raises z e :
  PyNum.float_of_int z = Raise e → e = OverflowError.
Proof.
  unfold PyNum.float_of_int. destruct (is_infinity _); [|discriminate].
  by intros [= <-].
Qed.

Lemma coerce_numeric v s : PyNum.coerce v = Ok s → PyNum.is_int_or_float v = true.
Proof. destruct v; cbn; congruence. Qed.

Lemma apply_cristian_raise k t_send t_recv server_time e :
  PyNum.coerce server_time = Raise e →
  apply_cristian k (PFloat t_send) server_time (PFloat t_recv) = Raise e.
Proof.
  intros He. unfold apply_cristian. rewrite sub_floats. cbn.
  unfold PyNum.add, PyNum.arith.
  destruct server_time; try discriminate; cbn in He |- *;
    first [by injection He as <- | by rewrite He].
Qed.

Lemma apply_cristian_starts k t_send server_time t_recv k' :
  apply_cristian k t_send server_time t_recv = Ok k' →
  start_real k' = start_real k ∧ start_local k' = start_local k.
Proof.
  unfold apply_cristian.
  destruct (PyNum.sub t_recv t_send) as [rtt|]; [|discriminate]. cbn.
  destruct (PyNum.truediv rtt 2) as [half|]; [|discriminate]. cbn.
  destruct (PyNum.add server_time half) as [s|]; [|discriminate]. cbn.
  destruct (PyNum.sub s t_recv) as [est|]; [|discriminate]. cbn.
  by intros [= <-].
Qed.

(** X9.  After the guard [isinstance(server_time, (int, float))], with
    the two local times floats, [apply_cristian] has two outcomes only:
    it sets the offset, or [server_time] is an integer that does not fit
    a binary64 and the arithmetic raises [OverflowError]; no other
    exception is possible. *)
Theorem apply_cristian_guarded
        (c : Clock) (t_send t_recv : float) (server_time : pyval) :
  PyNum.is_int_or_float server_time = true →
  (∃ s, PyNum.coerce server_time = Ok s
        ∧ apply_cristian c (PFloat t_send) server_time (PFloat t_recv)
          = Ok {| start_real := start_real c; start_local := start_local c;
                  offset := PFloat (s + (t_recv - t_send) / 2 - t_recv) |})
  ∨ (∃ z, PyNum.as_int server_time = Some z
          ∧ PyNum.float_of_int z = Raise OverflowError
          ∧ apply_cristian c (PFloat t_send) server_time (PFloat t_recv)
            = Raise OverflowError).
Proof.
  intros Hnum.
  destruct (PyNum.coerce server_time) as [s|e] eqn:Hc.
  - left. exists s. split; [done|]. by apply apply_cristian_eq.
  - right.
    assert (∃ z, PyNum.as_int server_time = Some z
                 ∧ PyNum.float_of_int z = Raise e) as (z & Hz & Hf).
    { destruct server_time; try discriminate; cbn in Hc |- *; by eexists. }
    pose proof (float_of_int_raises z e Hf) as ->.
    exists z. repeat split; try done. by apply apply_cristian_raise.
Qed.

Lemma apply_cristian_guarded_witness :
  (∃ s, PyNum.coerce (PInt (2 ^ 1024)) = Ok s
        ∧ apply_cristian (Clock_init 0) (PFloat 100) (PInt (2 ^ 1024))
                         (PFloat 102)
          = Ok {| start_real := 0%float; start_local := 0%float;
                  offset := PFloat (s + (102 - 100) / 2 - 102) |})
  ∨ (∃ z, PyNum.as_int (PInt (2 ^ 1024)) = Some z
          ∧ PyNum.float_of_int z = Raise OverflowError
          ∧ apply_cristian (Clock_init 0) (PFloat 100) (PInt (2 ^ 1024))
                           (PFloat 102)
            = Raise OverflowError).
Proof.
  exact (apply_cristian_guarded (Clock_init 0) 100 102 (PInt (2 ^ 1024))
           eq_refl).
Defined.

(** X10.  A round of a running client whose request goes out and whose
    wait finds a reply with a [server_time] that converts to the binary64
    [s] replaces the offset by [s + (t_recv - t_send)/2 - t_recv], where
    [t_send] and [t_recv] are the local clock readings before the send
    and after the wait; it reports the adjustment, leaves on the queue
    what the wait left there, and schedules the next round. *)
Theorem successful_round_sets_offset
        (r : round) (a : ClientApp) (d : pydict) (q : list pyval) (s : float) :
  running a = true →
  send_ok r = true →
  wait_reply (sched r) (ui_queue a) = (Ok (Some d), q) →
  PyNum.coerce (dict_get d "server_time" PNone) = Ok s →
  let t_send := now_local (clock a) (wall_send r) in
  let t_recv := now_local (clock a) (wall_recv r) in
  sync_with_server r a
  = {| running := true;
       clock := {| start_real := start_real (clock a);
                   start_local := start_local (clock a);
                   offset := PFloat (s + (t_recv - t_send) / 2 - t_recv) |};
       ui_queue := q;
       chat := chat a ++ [Line "[sync] clock adjusted"];
       timers := timers a ++ [(5000, TaskSync)] |}.
Proof.
  intros Hrun Hsend Hw Hs t_send t_recv.
  unfold sync_with_server, sync_try. rewrite Hrun, Hsend, Hw. cbn [negb].
  rewrite (coerce_numeric _ _ Hs).
  rewrite (apply_cristian_eq _ _ _ _ _ Hs). reflexivity.
Qed.

Lemma successful_round_sets_offset_witness :
  sync_with_server
    {| wall_send := 100; send_ok := true; sched := [quiet]; wall_recv := 102 |}
    {| running := true; clock := Clock_init 0;
       ui_queue := [PDict (sync_reply 205)]; chat := []; timers := [] |}
  = {| running := true;
       clock := {| start_real := 0; start_local := 0;
                   offset := PFloat (205 + (now_local (Clock_init 0) 102
                                            - now_local (Clock_init 0) 100) / 2
                                     - now_local (Clock_init 0) 102) |};
       ui_queue := [];
       chat := [Line "[sync] clock adjusted"];
       timers := [(5000, TaskSync)] |}.
Proof.
  exact (successful_round_sets_offset
           {| wall_send := 100; send_ok := true; sched := [quiet];
              wall_recv := 102 |}
           {| running := true; clock := Clock_init 0;
              ui_queue := [PDict (sync_reply 205)]; chat := []; timers := [] |}
           (sync_reply 205) [] 205 eq_refl eq_refl eq_refl eq_refl).
Defined.

(** X11.  Whatever happens in a round of a running client (the send
    failing, the wait raising, no reply, a reply that is not numeric, an
    overflow), the round appends exactly one line to the chat, schedules
    exactly one next round and leaves the client running and the clock's
    start readings alone; and the clock is changed only by a round that
    reports ["[sync] clock adjusted"]: every other round reports a
    failure and leaves the clock as it was. *)
Theorem sync_round_all_or_nothing (r : round) (a : ClientApp) :
  running a = true →
  let a' := sync_with_server r a in
  running a' = true
  ∧ timers a' = timers a ++ [(5000, TaskSync)]
  ∧ start_real (clock a') = start_real (clock a)
  ∧ start_local (clock a') = start_local (clock a)
  ∧ ∃ l, chat a' = chat a ++ [l]
         ∧ (l = Line "[sync] clock adjusted"
            ∨ (failure_line l = true ∧ clock a' = clock a)).
Proof.
  intros Hrun a'. unfold a', sync_with_server, sync_try. rewrite Hrun.
  cbn [negb].
  destruct (send_ok r); cbn [negb].
  2:{ cbn. repeat split; try done. eexists. split; [done|]. by right. }
  destruct (wait_reply (sched r) (ui_queue a)) as [[[d|]|e] q].
  2,3: cbn; repeat split; try done; eexists; (split; [done|]); by right.
  destruct (PyNum.is_int_or_float _).
  2:{ cbn. repeat split; try done. eexists. split; [done|]. by right. }
  destruct (apply_cristian _ _ _ _) as [k'|e] eqn:Hk.
  - apply apply_cristian_starts in Hk as [??]. cbn.
    repeat split; try done. eexists. split; [done|]. by left.
  - cbn. repeat split; try done. eexists. split; [done|]. by right.
Qed.

Lemma sync_round_all_or_nothing_witness :
  timers (sync_with_server round0 app0) = timers app0 ++ [(5000, TaskSync)].
Proof.
  exact (proj1 (proj2 (sync_round_all_or_nothing round0 app0 eq_refl))).
Defined.

(** ** The wait loop and the inbound queue *)

Lemma wait_reply_plain_step sched0 m q :
  is_plain m = true →
  wait_reply (quiet :: sched0) (m :: q) = wait_reply sched0 (q ++ [m]).
Proof.
  intros Hm. cbn [wait_reply quiet before_get before_put].
  rewrite app_nil_r. cbn [app].
  destruct m as [| | | | | |d]; try discriminate.
  cbn in Hm. apply negb_true_iff in Hm. by rewrite Hm.
Qed.

Lemma requeue_rotate (q : list pyval) : requeue q = rotate 1 q.
Proof.
  destruct q as [|x [|y q]]; try reflexivity.
  unfold rotate. cbn [length].
  rewrite Nat.mod_small by lia. reflexivity.
Qed.

Lemma rotate_requeue n (q : list pyval) : rotate n (requeue q) = rotate (S n) q.
Proof.
  rewrite requeue_rotate. apply list_eq. intros i.
  destruct (decide (i < length q)%nat) as [Hi|Hi].
  - assert (0 < length q)%nat as Hpos by lia.
    rewrite (lookup_rotate_r (rotate 1 q)) by (rewrite length_rotate; lia).
    rewrite length_rotate.
    rewrite (lookup_rotate_r q 1) by (by apply rotate_nat_add_lt).
    rewrite (lookup_rotate_r q (S n)) by done.
    f_equal. unfold rotate_nat_add.
    rewrite Z2Nat.id by (apply Z.mod_pos_bound; lia).
    rewrite Zplus_mod_idemp_r. f_equal. f_equal. lia.
  - rewrite !lookup_ge_None_2; [done|rewrite ?length_rotate; lia..].
Qed.

Lemma Forall_take_snoc {A} (P : A → Prop) n x (l : list A) :
  P x → Forall P (take n l) → Forall P (take n (l ++ [x])).
Proof.
  intros Hx Hl. rewrite take_app. apply Forall_app. split; [done|].
  apply Forall_take. by apply Forall_singleton.
Qed.

(** X12.  When the queue holds the reply behind [pre], records that are
    JSON objects and not replies, and the loop has more iterations than
    [pre] has records (nothing arriving meanwhile), the wait returns that
    reply, and every record of [pre] has been moved behind the records
    [post] that were queued after the reply: the queue left behind is
    [post ++ pre]. *)
Theorem wait_reply_finds_reply
        (n : nat) (pre post : list pyval) (d : pydict) :
  Forall (λ m, is_plain m = true) pre →
  is_sync_reply d = true →
  (length pre < n)%nat →
  wait_reply (replicate n quiet) (pre ++ PDict d :: post)
  = (Ok (Some d), post ++ pre).
Proof.
  intros Hpre Hd. revert n post.
  induction Hpre as [|m pre Hm Hpre IH]; intros n post Hn.
  - destruct n as [|n]; [cbn in Hn; lia|].
    cbn [replicate wait_reply quiet before_get before_put app].
    rewrite Hd. by rewrite !app_nil_r.
  - destruct n as [|n]; [cbn in Hn; lia|].
    cbn [replicate app]. rewrite wait_reply_plain_step by done.
    rewrite <- app_assoc. cbn [app].
    rewrite (IH n (post ++ [m])) by (cbn in Hn; lia).
    by rewrite <- app_assoc.
Qed.

Lemma wait_reply_finds_reply_witness :
  wait_reply (replicate 2 quiet)
             ([PDict chat_a] ++ PDict (sync_reply 5) :: [PDict chat_b])
  = (Ok (Some (sync_reply 5)), [PDict chat_b] ++ [PDict chat_a]).
Proof.
  apply (wait_reply_finds_reply 2 [PDict chat_a] [PDict chat_b] (sync_reply 5)).
  - by apply Forall_singleton.
  - reflexivity.
  - cbn. lia.
Defined.

(** X13.  A wait of [n] iterations that meets no reply (the records it
    looks at are JSON objects and not replies, nothing arriving
    meanwhile) ends without one and leaves the queue rotated by [n]
    places: no record is lost or duplicated, and the order is the
    original one only when [n] is a multiple of the queue's length. *)
Theorem wait_reply_timeout_rotates (n : nat) (q : list pyval) :
  Forall (λ m, is_plain m = true) (take n q) →
  wait_reply (replicate n quiet) q = (Ok None, rotate n q).
Proof.
  revert q. induction n as [|n IH]; intros q Hq.
  - cbn [replicate wait_reply]. unfold rotate.
    rewrite Nat.Div0.mod_0_l. cbn [drop take]. by rewrite app_nil_r.
  - destruct q as [|m q].
    + cbn [replicate wait_reply quiet before_get app].
      rewrite (IH []) by (by rewrite take_nil).
      unfold rotate. by rewrite !drop_nil, !take_nil.
    + cbn [take] in Hq. apply Forall_cons in Hq as [Hm Hq].
      cbn [replicate]. rewrite wait_reply_plain_step by done.
      rewrite IH by (by apply Forall_take_snoc).
      f_equal. apply (rotate_requeue n (m :: q)).
Qed.

Lemma wait_reply_timeout_rotates_witness :
  wait_reply (replicate 1 quiet) [PDict chat_a; PDict chat_b]
  = (Ok None, rotate 1 [PDict chat_a; PDict chat_b]).
Proof.
  apply (wait_reply_timeout_rotates 1 [PDict chat_a; PDict chat_b]).
  by apply Forall_singleton.
Defined.

(** ** The consumer of the inbound queue *)

Section DisplayProofs.

Variable format_ts : pyval → result string.
Variable py_str : pyval → string.
Variable describe : exn → string.

Lemma drain_app pre rest lines :
  Forall (displayable format_ts py_str) pre →
  drain format_ts py_str (pre ++ rest) lines
  = drain format_ts py_str rest (lines ++ shown format_ts py_str pre).
Proof.
  intros Hpre. revert lines.
  induction Hpre as [|m pre (d & o & -> & Hd) Hpre IH]; intros lines.
  - cbn. by rewrite app_nil_r.
  - cbn [app drain shown flat_map]. rewrite Hd. destruct o as [l|].
    + rewrite IH. by rewrite <- app_assoc.
    + rewrite IH. reflexivity.
Qed.

(** X14.  When every queued message is a dict whose display does not
    raise, one run of [process_ui_queue] empties the queue, appends the
    lines of the [chat] and [info] records in queue order (records of any
    other type add nothing), touches neither the clock nor the running
    flag, and schedules itself again after 50 ms. *)
Theorem process_ui_queue_drains (a : ClientApp) :
  Forall (displayable format_ts py_str) (ui_queue a) →
  process_ui_queue format_ts py_str a
  = {| running := running a;
       clock := clock a;
       ui_queue := [];
       chat := chat a ++ shown format_ts py_str (ui_queue a);
       timers := timers a ++ [(50, TaskUi)] |}.
Proof.
  intros Hq. unfold process_ui_queue.
  rewrite <- (app_nil_r (ui_queue a)) at 1.
  rewrite drain_app by done. reflexivity.
Qed.

(** X15.  A queued value that is not a dict, or a dict whose display
    raises, ends the consumer: the messages before it are displayed, the
    offending message is gone from the queue, the messages behind it stay
    queued, and [process_ui_queue] is not scheduled again. *)
Theorem process_ui_queue_stops_at_failure
        (a : ClientApp) (pre post : list pyval) (bad : pyval) :
  ui_queue a = pre ++ bad :: post →
  Forall (displayable format_ts py_str) pre →
  ¬ displayable format_ts py_str bad →
  process_ui_queue format_ts py_str a
  = {| running := running a;
       clock := clock a;
       ui_queue := post;
       chat := chat a ++ shown format_ts py_str pre;
       timers := timers a |}.
Proof.
  intros Hq Hpre Hbad. unfold process_ui_queue. rewrite Hq.
  rewrite drain_app by done. cbn [drain].
  destruct bad as [| | | | | |d]; try reflexivity.
  destruct (display format_ts py_str d) as [o|e] eqn:Hd; [|reflexivity].
  exfalso. apply Hbad. by exists d, o.
Qed.

End DisplayProofs.

Lemma process_ui_queue_drains_witness :
  process_ui_queue (λ _, Ok "00:00:00") (λ _, "?")
    {| running := true; clock := Clock_init 0;
       ui_queue := [PDict (info "hello"); PDict (sync_reply 5)];
       chat := []; timers := [] |}
  = {| running := true; clock := Clock_init 0; ui_queue := [];
       chat := [] ++ shown (λ _, Ok "00:00:00") (λ _, "?")
                 [PDict (info "hello"); PDict (sync_reply 5)];
       timers := [] ++ [(50, TaskUi)] |}.
Proof.
  apply (process_ui_queue_drains (λ _, Ok "00:00:00") (λ _, "?")
           {| running := true; clock := Clock_init 0;
              ui_queue := [PDict (info "hello"); PDict (sync_reply 5)];
              chat := []; timers := [] |}).
  repeat constructor.
  - by exists (info "hello"), (Some "hello").
  - by exists (sync_reply 5), None.
Defined.

Lemma process_ui_queue_stops_at_failure_witness :
  process_ui_queue (λ _, Ok "00:00:00") (λ _, "?")
    {| running := true; clock := Clock_init 0;
       ui_queue := [PDict (info "hello"); PInt 5; PDict (info "bye")];
       chat := []; timers := [] |}
  = {| running := true; clock := Clock_init 0;
       ui_queue := [PDict (info "bye")];
       chat := [] ++ shown (λ _, Ok "00:00:00") (λ _, "?") [PDict (info "hello")];
       timers := [] |}.
Proof.
  apply (process_ui_queue_stops_at_failure (λ _, Ok "00:00:00") (λ _, "?")
           {| running := true; clock := Clock_init 0;
              ui_queue := [PDict (info "hello"); PInt 5; PDict (info "bye")];
              chat := []; timers := [] |}
           [PDict (info "hello")] [PDict (info "bye")] (PInt 5)).
  - reflexivity.
  - repeat constructor. by exists (info "hello"), (Some "hello").
  - intros (d & o & Hd & _). discriminate.
Defined.

(** ** The sender *)

Lemma rstrip_empty t : rstrip t = EmptyString → all_space t = true.
Proof.
  induction t as [|c t IH]; [done|]. cbn [rstrip all_space].
  destruct (rstrip t); [|discriminate].
  destruct (is_space c); [|discriminate]. intros _. by rewrite IH.
Qed.

Lemma all_space_of_lstrip s : all_space (lstrip s) = true → all_space s = true.
Proof.
  induction s as [|c s IH]; [done|]. cbn [lstrip all_space].
  destruct (is_space c) eqn:Hc; [done|].
  cbn [all_space]. by rewrite Hc.
Qed.

Lemma strip_empty s : strip s = EmptyString ↔ all_space s = true.
Proof.
  split; [|apply all_space_strip].
  intros H. by apply all_space_of_lstrip, rstrip_empty.
Qed.

Lemma rstrip_idem t : rstrip (rstrip t) = rstrip t.
Proof.
  induction t as [|c t IH]; [done|]. cbn [rstrip].
  destruct (rstrip t) as [|c' r] eqn:Hr.
  - destruct (is_space c) eqn:Hc; [done|]. cbn [rstrip]. by rewrite Hc.
  - change (rstrip (String c (String c' r)))
      with (match rstrip (String c' r) with
            | EmptyString =>
                if is_space c then EmptyString else String c EmptyString
            | r0 => String c r0
            end).
    by rewrite IH.
Qed.

Lemma lstrip_head s c r : lstrip s = String c r → is_space c = false.
Proof.
  induction s as [|c0 s IH]; [done|]. cbn [lstrip].
  destruct (is_space c0) eqn:Hc; [done|]. by intros [= <- _].
Qed.

Lemma rstrip_head c r :
  is_space c = false → rstrip (String c r) = String c (rstrip r).
Proof. intros Hc. cbn [rstrip]. destruct (rstrip r); by rewrite ?Hc. Qed.

Lemma strip_idem s : strip (strip s) = strip s.
Proof.
  unfold strip. destruct (lstrip s) as [|c r] eqn:Hl; [done|].
  pose proof (lstrip_head _ _ _ Hl) as Hc.
  rewrite (rstrip_head c r Hc). cbn [lstrip]. rewrite Hc.
  rewrite <- (rstrip_head c r Hc). apply rstrip_idem.
Qed.

Section SenderProofs.

Variable format_ts : pyval → result string.
Variable describe : exn → string.

(** X16.  [send_msg] on an entry that is empty or all whitespace does
    nothing at all: nothing is handed to the socket, nothing is shown,
    and the entry is not cleared.  On any other entry it hands over one
    chat record with the user's name, the entry's text without its
    surrounding whitespace (so never blank) and the local clock reading;
    then, whether or not the send succeeds, it appends exactly one line
    to the chat and clears the entry, and touches nothing else. *)
Theorem send_msg_blank_or_sent
        (username entry : string) (wall : float) (ok : bool) (a : ClientApp) :
  let r := send_msg format_ts describe username entry wall ok a in
  if all_space entry then
    r = {| handed := None; client_after := a; entry_after := entry |}
  else
    ∃ text l,
      text = strip entry ∧ text ≠ EmptyString ∧ strip text = text
      ∧ handed r = Some (chat_msg username text (now_local (clock a) wall))
      ∧ entry_after r = EmptyString
      ∧ client_after r
        = {| running := running a; clock := clock a; ui_queue := ui_queue a;
             chat := chat a ++ [Line l]; timers := timers a |}
      ∧ (ok = false → l = "[error] " +:+ describe OSError).
Proof.
  intros r. unfold r, send_msg.
  destruct (all_space entry) eqn:Hsp.
  - by rewrite (all_space_strip _ Hsp).
  - assert (strip entry ≠ EmptyString) as Hne.
    { intros H%strip_empty. congruence. }
    pose proof (strip_idem entry) as Hid.
    destruct (strip entry) as [|c t]; [done|].
    eexists _, _. repeat split; try done.
    intros ->. reflexivity.
Qed.

End SenderProofs.

(** ** The receiver thread *)

(** X17.  Whatever arrives and however the loop ends, [receiver_loop]
    only appends to the queue: what was queued stays in front, in order;
    behind it come decoded lines, at most one per line read, each the
    [json.loads] of a line that was read (a line for which [json.loads]
    raises, whatever the exception, is skipped), in the order of arrival;
    and the disconnect notice is always the last thing queued. *)
Theorem receiver_loop_appends
        (loads : string → result pyval) (ins : list (bool * string))
        (q : list pyval) :
  ∃ new,
    receiver_loop loads ins q = q ++ new ++ [PDict disconnected]
    ∧ new `sublist_of` omap (λ i, caught (loads (strip (snd i)))) ins
    ∧ (Forall (λ i, fst i = true) ins →
       new = omap (λ i, caught (loads (strip (snd i)))) ins).
Proof.
  unfold receiver_loop.
  assert (∃ new, receive loads ins q = q ++ new
                 ∧ new `sublist_of` omap (λ i, caught (loads (strip (snd i)))) ins
                 ∧ (Forall (λ i, fst i = true) ins →
                    new = omap (λ i, caught (loads (strip (snd i)))) ins))
    as (new & -> & Hsub & Hall).
  { revert q. induction ins as [|[run line] ins IH]; intros q.
    - exists []. cbn. by rewrite app_nil_r.
    - cbn [receive omap list_omap snd]. destruct run.
      + destruct (loads (strip line)) as [msg|e]; cbn [caught].
        * destruct (IH (q ++ [msg])) as (new & -> & Hsub & Hall).
          exists (msg :: new). rewrite <- app_assoc. split; [done|]. split.
          -- by apply sublist_skip.
          -- intros [_ H]%Forall_cons. by rewrite Hall.
        * destruct (IH q) as (new & -> & Hsub & Hall).
          exists new. split; [done|]. split; [done|].
          intros [_ H]%Forall_cons. by apply Hall.
      + exists []. rewrite app_nil_r. split; [done|]. split.
        * apply sublist_nil_l.
        * intros [H _]%Forall_cons. discriminate. }
  exists new. by rewrite <- app_assoc.
Qed.

(** ** Client and server together *)

Lemma encode_length fr v : (1 <= String.length (encode fr v))%nat.
Proof. unfold encode. rewrite sapp_length. cbn [String.length]. lia. Qed.

Lemma wire_length fr ds : (length ds <= String.length (wire fr ds))%nat.
Proof.
  induction ds as [|d ds IH]; [done|]. cbn [wire foldr length].
  rewrite sapp_length. pose proof (encode_length fr (PDict d)).
  change (foldr _ _ ds) with (wire fr ds). lia.
Qed.

Section Exchange.

Variable float_repr : float → string.
Variable float_of_str : string → float.
Variable format_ts : pyval → result string.
Variable py_str : pyval → string.
Variable describe : exn → string.

Hypothesis float_repr_read :
  ∀ f, is_special f = false → float_of_str (float_repr f) = f.
Hypothesis float_repr_token :
  ∀ f rest, is_special f = false → delim_start rest = true →
            scan_number (float_repr f +:+ rest) = Some (float_repr f, true, rest).

Lemma loads_strip_encode d :
  flat d →
  loads float_of_str (strip (encode float_repr (PDict d))) = Ok (PDict d).
Proof.
  intros Hd. rewrite strip_encode.
  by apply (loads_dumps_flat float_repr float_of_str).
Qed.

Lemma handle_line_encoded net now c d w :
  flat d →
  handle_line (loads float_of_str) net now c (encode float_repr (PDict d)) w
  = handle_msg net now c (PDict d) w.
Proof.
  intros Hd. unfold handle_line. rewrite (loads_strip_encode d Hd).
  rewrite strip_encode, dumps_dict. reflexivity.
Qed.

Lemma receive_encoded d ins q :
  flat d →
  receive (loads float_of_str) ((true, encode float_repr (PDict d)) :: ins) q
  = receive (loads float_of_str) ins (q ++ [PDict d]).
Proof. intros Hd. cbn [receive]. by rewrite (loads_strip_encode d Hd). Qed.

Lemma file_lines_wire ds fuel :
  Forall flat ds → (length ds <= fuel)%nat →
  file_lines fuel (wire float_repr ds)
  = map (λ d, encode float_repr (PDict d)) ds.
Proof.
  intros Hds. revert fuel.
  induction Hds as [|d ds Hd Hds IH]; intros fuel Hf.
  - by destruct fuel.
  - destruct fuel as [|fuel]; [cbn in Hf; lia|].
    cbn [file_lines wire foldr map].
    rewrite (readline_encode_flat float_repr float_repr_token d _ Hd).
    f_equal. apply IH. cbn in Hf. lia.
Qed.

Lemma flat_chat_msg u t ts : flat (chat_msg u t ts).
Proof.
  split.
  - cbn. apply (bool_decide_unpack _). by vm_compute.
  - repeat constructor.
Qed.

Lemma flat_chat_out_msg u t ts now : flat (chat_out (chat_msg u t ts) now).
Proof.
  split.
  - cbn. apply (bool_decide_unpack _). by vm_compute.
  - repeat constructor.
Qed.

Lemma flat_sync_reply now : flat (sync_reply now).
Proof.
  split.
  - cbn. apply (bool_decide_unpack _). by vm_compute.
  - repeat constructor.
Qed.

Lemma flat_sync_request : flat sync_request.
Proof.
  split.
  - cbn. apply (bool_decide_unpack _). by vm_compute.
  - repeat constructor.
Qed.

(** X18.  For records with distinct keys and scalar fields, the integers
    among them of at most 4300 digits, every [send_json] produces its
    line; the lines written one after the other are cut by the line
    iterator into exactly the lines that were written, and the receiver
    thread queues exactly those records, in order, behind what was
    already queued, followed by the disconnect notice when the stream
    ends.  A record that holds an integer of more than 4300 digits is not
    written at all: [json.dumps] raises [ValueError]. *)
Theorem stream_delivers_records (ds : list pydict) (q : list pyval) :
  Forall flat ds →
  Forall (λ d, send_data float_repr (PDict d)
               = Ok (encode float_repr (PDict d))) ds
  ∧ iter_lines (wire float_repr ds) = map (λ d, encode float_repr (PDict d)) ds
  ∧ receiver_loop (loads float_of_str)
                  (map (λ l, (true, l)) (iter_lines (wire float_repr ds))) q
    = q ++ map PDict ds ++ [PDict disconnected]
  ∧ (∀ d, dumpable (PDict d) = false →
          send_data float_repr (PDict d) = Raise ValueError).
Proof.
  intros Hds.
  assert (Hlines : iter_lines (wire float_repr ds)
                   = map (λ d, encode float_repr (PDict d)) ds).
  { unfold iter_lines. apply file_lines_wire; [done|apply wire_length]. }
  split.
  { eapply Forall_impl; [exact Hds|]. intros d Hd.
    by apply (send_data_flat float_repr). }
  split; [done|].
  split; [|intros d Hd; unfold send_data, json_dumps; by rewrite Hd].
  rewrite Hlines. unfold receiver_loop.
  rewrite app_assoc. f_equal. clear Hlines.
  revert q. induction Hds as [|d ds Hd Hds IH]; intros q.
  - cbn. by rewrite app_nil_r.
  - cbn [map]. rewrite receive_encoded by done.
    rewrite IH. by rewrite <- app_assoc.
Qed.

(** X19.  A chat message from the entry widget to the other clients'
    chat windows.  The record handed over by [send_msg], once encoded,
    read and handled by the server, is broadcast to every registered
    connection with the sender's name, the stripped text and the sender's
    clock reading unchanged and with the server's receipt time added; a
    client that reads the encoded broadcast queues that same record, and
    its consumer shows it with both time stamps, the name and the
    text. *)
Theorem chat_end_to_end
        (username entry : string) (wall now : float) (a : ClientApp)
        (net : conn → bool) (c : conn) (w : world) (q : list pyval) :
  all_space entry = false →
  let client_ts := now_local (clock a) wall in
  let msg := chat_msg username (strip entry) client_ts in
  let out := [("type", PStr "chat"); ("from", PStr username);
              ("text", PStr (strip entry)); ("client_ts", PFloat client_ts);
              ("server_ts", PFloat now)] in
  handed (send_msg format_ts describe username entry wall true a) = Some msg
  ∧ handle_line (loads float_of_str) net now c
                (encode float_repr (PDict msg)) w
    = (Ok tt, broadcast net (PDict out) None w)
  ∧ receive (loads float_of_str) [(true, encode float_repr (PDict out))] q
    = q ++ [PDict out]
  ∧ display format_ts py_str out
    = (left ← stamp format_ts (PFloat client_ts);
       right ← stamp format_ts (PFloat now);
       Ok (Some ("[client " +:+ left +:+ " | server " +:+ right +:+ "] "
                 +:+ username +:+ ": " +:+ strip entry))).
Proof.
  intros Hsp client_ts msg out.
  assert (strip entry ≠ EmptyString) as Hne.
  { intros H%strip_empty. congruence. }
  split; [|split; [|split]].
  - unfold send_msg. fold client_ts.
    destruct (strip entry) eqn:Hs; [done|]. reflexivity.
  - rewrite handle_line_encoded by apply flat_chat_msg. reflexivity.
  - rewrite (receive_encoded out [] q); [done|].
    apply (flat_chat_out_msg username (strip entry) client_ts now).
  - reflexivity.
Qed.

(** X20.  One sync exchange.  The server answers the encoded
    [sync_request] of a connection with one write of the [sync_reply]
    carrying its clock reading [now] to that connection; and a round of
    a running client with an empty queue, during whose wait the receiver
    thread reads that encoded reply, sets the offset to
    [now + (t_recv - t_send)/2 - t_recv], reports the adjustment and
    leaves the queue empty. *)
Theorem sync_end_to_end
        (now : float) (net : conn → bool) (c : conn) (w : world)
        (r : round) (a : ClientApp) (later : list tick) :
  running a = true →
  send_ok r = true →
  ui_queue a = [] →
  sched r = arrival (loads float_of_str)
                    [encode float_repr (PDict (sync_reply now))] :: later →
  let t_send := now_local (clock a) (wall_send r) in
  let t_recv := now_local (clock a) (wall_recv r) in
  handle_line (loads float_of_str) net now c
              (encode float_repr (PDict sync_request)) w
  = send_json (net c) c (PDict (sync_reply now)) w
  ∧ sync_with_server r a
    = {| running := true;
         clock := {| start_real := start_real (clock a);
                     start_local := start_local (clock a);
                     offset := PFloat (now + (t_recv - t_send) / 2 - t_recv) |};
         ui_queue := [];
         chat := chat a ++ [Line "[sync] clock adjusted"];
         timers := timers a ++ [(5000, TaskSync)] |}.
Proof.
  intros Hrun Hsend Hq Hsched t_send t_recv. split.
  - rewrite handle_line_encoded by apply flat_sync_request. reflexivity.
  - unfold sync_with_server, sync_try.
    rewrite Hrun, Hsend, Hsched, Hq. cbn [negb].
    unfold arrival. cbn [map]. 
    rewrite (receive_encoded (sync_reply now) [] []) by apply flat_sync_reply.
    cbn [receive app wait_reply before_get before_put].
    change (is_sync_reply (sync_reply now)) with true. cbv iota.
    change (dict_get (sync_reply now) "server_time" PNone) with (PFloat now).
    cbn [PyNum.is_int_or_float].
    rewrite apply_cristian_floats. reflexivity.
Qed.

End Exchange.

Lemma stream_delivers_records_witness :
  iter_lines (wire fields_repr [info "hi"; sync_reply 5])
  = map (λ d, encode fields_repr (PDict d)) [info "hi"; sync_reply 5].
Proof.
  refine (proj1 (proj2 (stream_delivers_records fields_repr fields_parse
                          (λ f _, fields_repr_read f)
                          (λ f rest _ H, fields_repr_token f rest H)
                          [info "hi"; sync_reply 5] [] _))).
  repeat constructor; apply (bool_decide_unpack _); by vm_compute.
Defined.

Lemma chat_end_to_end_witness :
  handed (send_msg (λ _, Ok "00:00:00") (λ _, "error") "ann" " hi " 7 true app0)
  = Some (chat_msg "ann" (strip " hi ") (now_local (clock app0) 7)).
Proof.
  exact (proj1 (chat_end_to_end fields_repr fields_parse
                  (λ _, Ok "00:00:00") (λ _, "?") (λ _, "error")
                  (λ f _, fields_repr_read f)
                  (λ f rest _ H, fields_repr_token f rest H)
                  "ann" " hi " 7 8 app0 (λ _, true) 1%nat
                  {| clients := ∅; trace := [] |} [] eq_refl)).
Defined.

Lemma sync_end_to_end_witness :
  handle_line (loads fields_parse) (λ _, true) 205 1%nat
              (encode fields_repr (PDict sync_request))
              {| clients := ∅; trace := [] |}
  = send_json true 1%nat (PDict (sync_reply 205))
              {| clients := ∅; trace := [] |}.
Proof.
  exact (proj1 (sync_end_to_end fields_repr fields_parse
                  (λ f _, fields_repr_read f)
                  (λ f rest _ H, fields_repr_token f rest H)
                  205 (λ _, true) 1%nat {| clients := ∅; trace := [] |}
                  {| wall_send := 100; send_ok := true;
                     sched := [arrival (loads fields_parse)
                                 [encode fields_repr (PDict (sync_reply 205))]];
                     wall_recv := 102 |}
                  {| running := true; clock := Clock_init 0; ui_queue := [];
                     chat := []; timers := [] |}
                  [] eq_refl eq_refl eq_refl eq_refl)).
Defined.
